(** * MongoDB replica-set transaction timeout harness

    A shallow embedding of the four transaction scripts of the repository

      - [runTransaction]              (bounded timeouts, read from the environment)
      - [runTransactionNoTimeout]     (no timeouts, pause between the two writes)
      - [runTransactionHangPause]     (no timeouts, 15 s countdown before commit)
      - [runTransactionHangOnCommit]  (no timeouts, 30 s + 5 s before commit)

    and of the error dispatch each of them carries in its [catch] block,
    and of the RPC smoke test [testWorkerTimeouts] that shares a file with
    the last of them.

    Modelling conventions.
      - JavaScript numbers that occur here are integers or [NaN]; they are
        [number] below.  [parseInt] is exact on every input whose value fits
        a double without rounding (below 2^53 in magnitude); [-0] is [Num 0].
      - Strings are ASCII [string]s: the white space that [parseInt] skips
        is the ASCII part of StrWhiteSpaceChar, and the pictographs that
        prefix some console lines are not part of the modelled text.
      - The MongoDB driver is the environment: a [World] answers every driver
        call, as a function of everything that happened before it, with a
        resolution, a rejection, or a promise that never settles.
      - [async] code is a state-and-outcome monad over the event trace; an
        [await] on a promise that never settles yields [Pending] and nothing
        after it runs. *)

From stdpp Require Import base option list strings gmap pretty.
From Stdlib Require Import ZArith Lia Ascii.

Local Open Scope Z_scope.

(** ** JavaScript values used by the scripts *)

Inductive number : Type :=
| NaN
| Num (z : Z).

Global Instance number_eq_dec : EqDecision number.
Proof. solve_decision. Defined.

(** Template-literal rendering of a number: [`${n}`]. *)
Definition show_number (n : number) : string :=
  match n with
  | NaN => "NaN"
  | Num z => pretty z
  end.

(** ** [parseInt(s, 10)]

    The model below is JavaScript's [parseInt] on ASCII strings whose
    integer is at most 2^53 in magnitude: beyond that magnitude JavaScript
    rounds to a double, and outside ASCII it skips more white space.  The
    theorems that depend on either carry it as a hypothesis
    ([is_ascii_string], [MAX_EXACT]). *)

(** The ASCII part of [StrWhiteSpaceChar]: TAB, LF, VT, FF, CR, SP. *)
Definition is_white_space (c : ascii) : bool :=
  let n := Z.of_nat (nat_of_ascii c) in
  (9 <=? n) && (n <=? 13) || (n =? 32).

Fixpoint trim_start (s : string) : string :=
  match s with
  | String c rest => if is_white_space c then trim_start rest else s
  | EmptyString => EmptyString
  end.

Definition digit_value (c : ascii) : option Z :=
  let n := Z.of_nat (nat_of_ascii c) in
  if (48 <=? n) && (n <=? 57) then Some (n - 48) else None.

(** The longest prefix of radix-10 digits, read as a mathematical integer;
    [None] when that prefix is empty. *)
Fixpoint leading_digits (s : string) (acc : option Z) : option Z :=
  match s with
  | String c rest =>
      match digit_value c with
      | Some d => leading_digits rest (Some (10 * default 0 acc + d))
      | None => acc
      end
  | EmptyString => acc
  end.

Definition parseInt (s : string) : number :=
  let s1 := trim_start s in
  let '(sign, s2) :=
    match s1 with
    | String "-"%char rest => (-1, rest)
    | String "+"%char rest => (1, rest)
    | _ => (1, s1)
    end in
  match leading_digits s2 None with
  | Some n => Num (sign * n)
  | None => NaN
  end.

(** ** Configuration read from the environment (bounded script) *)

(** [process.env]: a string-keyed map; an unset variable reads [undefined]. *)
Abbreviation Env := (gmap string string).

(** [v || d] on an optional string: [undefined] and [''] are falsy. *)
Definition or_else (v : option string) (d : string) : string :=
  match v with
  | Some s => if decide (s = EmptyString) then d else s
  | None => d
  end.

Definition W_TIMEOUT_MS (env : Env) : number :=
  parseInt (or_else (env !! "W_TIMEOUT_MS") "2000").

Definition MAX_COMMIT_MS (env : Env) : number :=
  parseInt (or_else (env !! "MAX_COMMIT_MS") "1500").

Definition OP_MAXTIME_MS (env : Env) : number :=
  parseInt (or_else (env !! "OP_MAXTIME_MS") "1000").

(** ** Driver option objects

    A field that the object literal does not mention is [None]. *)

Record WriteConcern : Type := {
  w : string;
  wtimeout : option number
}.

Record ReadConcern : Type := {
  level : string
}.

Record TransactionOptions : Type := {
  writeConcern : WriteConcern;
  readConcern : ReadConcern;
  maxCommitTimeMS : option number
}.

(** The options object of [insertOne] / [updateOne]; [session] is always the
    script's one session, so only [maxTimeMS] varies. *)
Record OperationOptions : Type := {
  maxTimeMS : option number
}.

(** ** Errors raised by the driver *)

(** The fields of a thrown error that the scripts read.  [hasErrorLabel] is a
    method of driver errors and is absent on other errors. *)
Record RawFailure : Type := {
  code : option Z;
  codeName : option string;
  message : string;
  hasErrorLabel : option (string -> bool)
}.

(** [error.hasErrorLabel && error.hasErrorLabel('TransientTransactionError')] *)
Definition retryableLabelPresent (error : RawFailure) : bool :=
  match hasErrorLabel error with
  | Some has => has "TransientTransactionError"
  | None => false
  end.

(** [errorCodeName === name] *)
Definition name_is (error : RawFailure) (name : string) : bool :=
  match codeName error with
  | Some s => bool_decide (s = name)
  | None => false
  end.

(** [errorCode === n] *)
Definition code_is (error : RawFailure) (n : Z) : bool :=
  match code error with
  | Some c => bool_decide (c = n)
  | None => false
  end.

(** ** Error dispatch of the [catch] blocks

    Each branch of the [if]/[else if] chain prints one diagnosis; the branch
    taken is the category of the failure. *)

Inductive Category : Type :=
| OperationTimeout      (* "MaxTimeMSExpired: Operation exceeded maxTimeMS timeout" *)
| WriteConcernTimeout   (* "WriteConcernFailed: Write concern could not be satisfied ..." *)
| CommitTimeout         (* "ExceededTimeLimit: Transaction exceeded maxCommitTimeMS" *)
| Retryable             (* "TransientTransactionError: Transaction can be retried" *)
| TopologyChange        (* "Replica set topology changed during operation" *)
| Unclassified.         (* "Other Error: ..." / "Error: ..." *)

Global Instance Category_eq_dec : EqDecision Category.
Proof. solve_decision. Defined.

Inductive Action : Type :=
| Abort
| RetryTransaction
| RetryOperation
| NoAction.

Global Instance Action_eq_dec : EqDecision Action.
Proof. solve_decision. Defined.

(** Modelled from the spec: the recommended action of each category (the
    dispatch table of section 4.3); the scripts print the diagnosis only and
    carry no action value. *)
Definition recommendedAction (c : Category) : Action :=
  match c with
  | OperationTimeout => RetryOperation
  | WriteConcernTimeout => Abort
  | CommitTimeout => Abort
  | Retryable => RetryTransaction
  | TopologyChange => RetryTransaction
  | Unclassified => Abort
  end.

Record ClassifiedFailure : Type := {
  category : Category;
  action : Action
}.

Definition classified (c : Category) : ClassifiedFailure :=
  {| category := c; action := recommendedAction c |}.

Definition matches_operation_timeout (error : RawFailure) : bool :=
  name_is error "MaxTimeMSExpired" || code_is error 50.

Definition matches_write_concern (error : RawFailure) : bool :=
  name_is error "WriteConcernFailed" || code_is error 64.

Definition matches_commit_timeout (error : RawFailure) : bool :=
  name_is error "ExceededTimeLimit" || code_is error 262.

(** ** Driver calls, console output and the event trace *)

Record Document : Type := {
  testId : string;
  operationNumber : option Z;
  value : string;
  timestamp : Z
}.

Inductive Call : Type :=
| connect (uri : string)
| createIndex
| startSession
| startTransaction (options : TransactionOptions)
| insertOne (doc : Document) (options : OperationOptions)
| updateOne (filter_testId : string) (set_value : string) (updatedAt : Z)
            (options : OperationOptions)
| commitTransaction
| abortTransaction
| endSession
| close.

Inductive Event : Type :=
| EvCall (c : Call)            (* a driver call is issued *)
| EvSleep (ms : Z)             (* await sleep(ms) *)
| EvLog (line : string)        (* console.log *)
| EvError (line : string)      (* console.error *)
| EvErrorObject (label : string) (error : RawFailure)
                               (* console.error(label, error) *)
| EvWrite (text : string)      (* process.stdout.write *)
| EvExit (status : Z).         (* process.exit *)

(** What a driver call resolves to. *)
Inductive Result : Type :=
| Done
| Inserted (insertedId : string)
| Updated (modifiedCount : Z).

Inductive Reply : Type :=
| Resolves (r : Result)
| Rejects (error : RawFailure)
| NeverSettles.

(** The environment of a run.  Every answer may depend on the whole history. *)
Record World : Type := {
  reply : list Event -> Call -> Reply;       (* the driver's answer to a call *)
  inTransaction : list Event -> bool;        (* session.inTransaction() *)
  now : list Event -> Z                      (* Date.now() / new Date() *)
}.

Inductive ClientSession : Type := TheSession.

(** The mutable part of a run: the trace so far and the [session] variable
    ([None] is [null]). *)
Record State : Type := {
  trace : list Event;
  session : option ClientSession
}.

Inductive Outcome (A : Type) : Type :=
| Returned (a : A)
| Threw (error : RawFailure)
| Pending.
Arguments Returned {A} a.
Arguments Threw {A} error.
Arguments Pending {A}.

Definition M (A : Type) : Type := State -> Outcome A * State.

Global Instance M_ret : MRet M := fun A a s => (Returned a, s).

Global Instance M_bind : MBind M := fun A B f m s =>
  match m s with
  | (Returned a, s') => f a s'
  | (Threw e, s') => (Threw e, s')
  | (Pending, s') => (Pending, s')
  end.

(** [try { body } catch (error) { handler }] *)
Definition try_catch {A} (body : M A) (handler : RawFailure -> M A) : M A :=
  fun s =>
    match body s with
    | (Threw e, s') => handler e s'
    | other => other
    end.

(** [try { body } finally { finalizer }]: the finalizer runs after a return
    and after a throw, and what it throws replaces the body's outcome. *)
Definition try_finally {A} (body : M A) (finalizer : M unit) : M A :=
  fun s =>
    match body s with
    | (Pending, s') => (Pending, s')
    | (settled, s') =>
        match finalizer s' with
        | (Returned _, s'') => (settled, s'')
        | (Threw e, s'') => (Threw e, s'')
        | (Pending, s'') => (Pending, s'')
        end
    end.

Definition emit (e : Event) : M unit :=
  fun s => (Returned (), {| trace := trace s ++ [e]; session := session s |}).

Definition log (line : string) : M unit := emit (EvLog line).
Definition error_log (line : string) : M unit := emit (EvError line).
Definition stdout_write (text : string) : M unit := emit (EvWrite text).
Definition sleep (ms : Z) : M unit := emit (EvSleep ms).

(** One [console.error] per line. *)
Fixpoint error_lines (lines : list string) : M unit :=
  match lines with
  | [] => mret ()
  | line :: rest => error_log line ;; error_lines rest
  end.

Definition get_session : M (option ClientSession) :=
  fun s => (Returned (session s), s).

Definition set_session (v : option ClientSession) : M unit :=
  fun s => (Returned (), {| trace := trace s; session := v |}).

(** [for (let i = start; ...; i += step) body], with its trip count. *)
Fixpoint for_loop (trips : nat) (i step : Z) (body : Z -> M unit) : M unit :=
  match trips with
  | O => mret ()
  | S trips' => body i ;; for_loop trips' (i + step) step body
  end.

Definition insertedId_of (r : Result) : string :=
  match r with
  | Inserted id => id
  | _ => "undefined"
  end.

Definition modifiedCount_of (r : Result) : string :=
  match r with
  | Updated n => pretty n
  | _ => "undefined"
  end.

Definition nl : string := String (ascii_of_nat 10) EmptyString.

Fixpoint repeat_string (s : string) (n : nat) : string :=
  match n with
  | O => EmptyString
  | S n' => s +:+ repeat_string s n'
  end.

(** ['='.repeat(60)] *)
Definition rule : string := Eval vm_compute in repeat_string "=" 60.

(** [`${errorCode}`] *)
Definition show_code (c : option Z) : string :=
  match c with
  | Some z => pretty z
  | None => "undefined"
  end.

(** [errorCodeName || d] *)
Definition name_or (c : option string) (d : string) : string := or_else c d.

Definition dq : string := String (ascii_of_nat 34) EmptyString.
Definition quoted (s : string) : string := dq +:+ s +:+ dq.

(** [JSON.stringify] of a number: [NaN] is rendered [null]. *)
Definition json_number (n : number) : string :=
  match n with
  | NaN => "null"
  | Num z => pretty z
  end.

(** [JSON.stringify(transactionOptions, null, 2)] *)
Definition json_of_options (o : TransactionOptions) : string :=
  "{" +:+ nl +:+
  "  " +:+ quoted "writeConcern" +:+ ": {" +:+ nl +:+
  "    " +:+ quoted "w" +:+ ": " +:+ quoted (w (writeConcern o)) +:+
  match wtimeout (writeConcern o) with
  | Some n => "," +:+ nl +:+ "    " +:+ quoted "wtimeout" +:+ ": " +:+ json_number n
  | None => EmptyString
  end +:+ nl +:+
  "  }," +:+ nl +:+
  "  " +:+ quoted "readConcern" +:+ ": {" +:+ nl +:+
  "    " +:+ quoted "level" +:+ ": " +:+ quoted (level (readConcern o)) +:+ nl +:+
  "  }" +:+
  match maxCommitTimeMS o with
  | Some n => "," +:+ nl +:+ "  " +:+ quoted "maxCommitTimeMS" +:+ ": " +:+ json_number n
  | None => EmptyString
  end +:+ nl +:+
  "}".

(** The state in which a script starts. *)
Definition initial : State := {| trace := []; session := None |}.

(** ** The parts that the four scripts share word for word *)

Section Shared.
Context (world : World).

(** Issue a driver call and await it.  The call is on the trace whatever
    its answer is. *)
Definition call (c : Call) : M Result :=
  fun s =>
    let s' := {| trace := trace s ++ [EvCall c]; session := session s |} in
    match reply world (trace s) c with
    | Resolves r => (Returned r, s')
    | Rejects e => (Threw e, s')
    | NeverSettles => (Pending, s')
    end.

Definition in_transaction : M bool :=
  fun s => (Returned (inTransaction world (trace s)), s).

Definition date_now : M Z :=
  fun s => (Returned (now world (trace s)), s).

(** Head of every [catch] block: the banner and the raw fields. *)
Definition report_error (error : RawFailure) : M unit :=
  error_log (nl +:+ rule) ;;
  error_log "ERROR OCCURRED" ;;
  error_log rule ;;
  error_log ("Error Code: " +:+ show_code (code error)) ;;
  error_log ("Error Name: " +:+ name_or (codeName error) "N/A") ;;
  error_log ("Error Message: " +:+ message error +:+ nl).

(** Tail of every [catch] block:
    [if (session && session.inTransaction()) { try { abort } catch { log } }] *)
Definition attempt_abort : M unit :=
  s ← get_session;
  match s with
  | Some _ =>
      active ← in_transaction;
      if (active : bool) then
        try_catch
          (log "Attempting to abort transaction..." ;;
           call abortTransaction ;;
           log ("Transaction aborted successfully" +:+ nl))
          (fun abortError =>
             error_log ("Failed to abort transaction: " +:+ message abortError
                        +:+ " " +:+ nl))
      else mret ()
  | None => mret ()
  end.

(** Every [catch] block, given what its [if]/[else if] chain prints. *)
Definition catch_block (diagnosis : RawFailure -> list string)
    (error : RawFailure) : M unit :=
  report_error error ;;
  error_lines (diagnosis error) ;;
  error_log (rule +:+ nl) ;;
  attempt_abort.

(** Every [finally] block. *)
Definition finalizer : M unit :=
  s ← get_session;
  match s with
  | Some _ =>
      log "Ending session..." ;;
      call endSession ;;
      log ("Session ended" +:+ nl)
  | None => mret ()
  end ;;
  log "Closing MongoDB connection..." ;;
  call close ;;
  log ("Connection closed" +:+ nl) ;;
  log rule ;;
  log "Test completed. Process exiting cleanly." ;;
  log rule.

(** [try { body } catch (error) { handler } finally { finalizer }] *)
Definition try_catch_finally (body : M unit) (handler : RawFailure -> M unit) : M unit :=
  try_finally (try_catch body handler) finalizer.

(** The last statement of every script:
    [run().then(() => exit(0)).catch(error => exit(1))].
    The result is the exit status, if the process exits, and the trace. *)
Definition main_of (run : M unit) : option Z * list Event :=
  match run initial with
  | (Returned _, s) =>
      (Some 0, trace s ++ [EvLog (nl +:+ "Script finished successfully"); EvExit 0])
  | (Threw e, s) =>
      (Some 1, trace s ++ [EvErrorObject (nl +:+ "Unexpected error in main execution:") e;
                           EvExit 1])
  | (Pending, s) => (None, trace s)
  end.
End Shared.

Definition majority_write_concern (t : option number) : WriteConcern :=
  {| w := "majority"; wtimeout := t |}.

Definition majority_read_concern : ReadConcern := {| level := "majority" |}.

(** ** The bounded script: [runTransaction] *)

Module Tx.
Definition MONGO_URI : string :=
  "mongodb://mongo1:27017,mongo2:27017,mongo3:27017/?replicaSet=rs0".

(** The [if]/[else if] chain of the [catch] block. *)
Definition classify (error : RawFailure) : Category :=
  if matches_operation_timeout error then OperationTimeout
  else if matches_write_concern error then WriteConcernTimeout
  else if matches_commit_timeout error then CommitTimeout
  else if retryableLabelPresent error then Retryable
  else Unclassified.

(** What each branch prints. *)
Definition diagnosis (error : RawFailure) : list string :=
  match classify error with
  | OperationTimeout => ["MaxTimeMSExpired: Operation exceeded maxTimeMS timeout"]
  | WriteConcernTimeout =>
      ["WriteConcernFailed: Write concern could not be satisfied within wtimeout"]
  | CommitTimeout => ["ExceededTimeLimit: Transaction exceeded maxCommitTimeMS"]
  | Retryable => ["TransientTransactionError: Transaction can be retried"]
  | _ => ["Other Error: " +:+ name_or (codeName error) "Unknown"]
  end.

Definition transactionOptions (env : Env) : TransactionOptions :=
  {| writeConcern := majority_write_concern (Some (W_TIMEOUT_MS env));
     readConcern := majority_read_concern;
     maxCommitTimeMS := Some (MAX_COMMIT_MS env) |}.

Definition operationOptions (env : Env) : OperationOptions :=
  {| maxTimeMS := Some (OP_MAXTIME_MS env) |}.

Section Run.
Context (world : World) (env : Env).

Definition body : M unit :=
  log rule ;;
  log "MongoDB Transaction Timeout Test" ;;
  log rule ;;
  log ("Connection URI: " +:+ MONGO_URI) ;;
  log ("Write Concern Timeout: " +:+ show_number (W_TIMEOUT_MS env) +:+ "ms") ;;
  log ("Max Commit Time: " +:+ show_number (MAX_COMMIT_MS env) +:+ "ms") ;;
  log ("Operation MaxTime: " +:+ show_number (OP_MAXTIME_MS env) +:+ "ms") ;;
  log rule ;;
  log EmptyString ;;
  log "Connecting to MongoDB replica set..." ;;
  call world (connect MONGO_URI) ;;
  log ("Connected successfully!" +:+ nl) ;;
  try_catch
    (call world createIndex ;;
     log ("Ensured unique index on testId field" +:+ nl))
    (fun _ => mret ()) ;;
  call world startSession ;;
  set_session (Some TheSession) ;;
  log ("Session started" +:+ nl) ;;
  call world (startTransaction (transactionOptions env)) ;;
  log "Transaction started with options:" ;;
  log (json_of_options (transactionOptions env)) ;;
  log EmptyString ;;
  t ← date_now world;
  let testId := "test-" +:+ pretty t in
  let testDoc := {| testId := testId; operationNumber := None;
                    value := "initial"; timestamp := t |} in
  log ("Inserting document with testId: " +:+ testId +:+ " (maxTimeMS: "
       +:+ show_number (OP_MAXTIME_MS env) +:+ "ms)...") ;;
  insertResult ← call world (insertOne testDoc (operationOptions env));
  log ("Insert successful: " +:+ insertedId_of insertResult +:+ nl) ;;
  log "Sleeping 700ms between operations..." ;;
  sleep 700 ;;
  log ("Updating document (maxTimeMS: " +:+ show_number (OP_MAXTIME_MS env)
       +:+ "ms)...") ;;
  t' ← date_now world;
  updateResult ← call world (updateOne testId "updated" t' (operationOptions env));
  log ("Update successful: " +:+ modifiedCount_of updateResult
       +:+ " document(s) modified" +:+ nl) ;;
  log "Committing transaction..." ;;
  call world commitTransaction ;;
  log ("Transaction committed successfully!" +:+ nl).

Definition handler : RawFailure -> M unit := catch_block world diagnosis.

Definition runTransaction : M unit :=
  try_catch_finally world body handler.

Definition main : option Z * list Event := main_of runTransaction.
End Run.
End Tx.

(** ** The script without timeouts: [runTransactionNoTimeout] *)

Module TxNoTimeout.
Definition MONGO_URI : string :=
  "mongodb://mongo1:27017,mongo2:27017,mongo3:27017/?replicaSet=rs0&socketTimeoutMS=0&serverSelectionTimeoutMS=300000".

Definition classify (error : RawFailure) : Category :=
  if matches_operation_timeout error then OperationTimeout
  else if matches_write_concern error then WriteConcernTimeout
  else if matches_commit_timeout error then CommitTimeout
  else if retryableLabelPresent error then Retryable
  else Unclassified.

Definition diagnosis (error : RawFailure) : list string :=
  match classify error with
  | OperationTimeout =>
      ["MaxTimeMSExpired: Operation exceeded maxTimeMS timeout";
       "   NOTE: This should NOT happen in no-timeout mode!"]
  | WriteConcernTimeout =>
      ["WriteConcernFailed: Write concern could not be satisfied";
       "   NOTE: This should NOT happen without wtimeout!"]
  | CommitTimeout =>
      ["ExceededTimeLimit: Transaction exceeded maxCommitTimeMS";
       "   NOTE: This should NOT happen without maxCommitTimeMS!"]
  | Retryable => ["TransientTransactionError: Transaction can be retried"]
  | _ => ["Other Error: " +:+ name_or (codeName error) "Unknown"]
  end.

Definition transactionOptions : TransactionOptions :=
  {| writeConcern := majority_write_concern None;
     readConcern := majority_read_concern;
     maxCommitTimeMS := None |}.

Definition operationOptions : OperationOptions := {| maxTimeMS := None |}.

Section Run.
Context (world : World).

Definition body : M unit :=
  log rule ;;
  log "MongoDB Transaction Test - NO TIMEOUTS (Production Simulation)" ;;
  log rule ;;
  log ("Connection URI: " +:+ MONGO_URI) ;;
  log "WARNING: NO TIMEOUTS CONFIGURED" ;;
  log "   - No maxTimeMS on operations" ;;
  log "   - No wtimeout in write concern" ;;
  log "   - No maxCommitTimeMS on transaction" ;;
  log "   - No socketTimeoutMS in connection" ;;
  log EmptyString ;;
  log "This test will HANG INDEFINITELY if majority is lost!" ;;
  log "Use Ctrl+C to kill if it hangs." ;;
  log rule ;;
  log EmptyString ;;
  log "Connecting to MongoDB replica set..." ;;
  call world (connect MONGO_URI) ;;
  log ("Connected successfully!" +:+ nl) ;;
  try_catch
    (call world createIndex ;;
     log ("Ensured unique index on testId field" +:+ nl))
    (fun _ => mret ()) ;;
  call world startSession ;;
  set_session (Some TheSession) ;;
  log ("Session started" +:+ nl) ;;
  call world (startTransaction transactionOptions) ;;
  log "Transaction started with options (NO TIMEOUTS):" ;;
  log (json_of_options transactionOptions) ;;
  log EmptyString ;;
  t ← date_now world;
  let testId := "test-notimeout-" +:+ pretty t in
  let testDoc := {| testId := testId; operationNumber := None;
                    value := "initial"; timestamp := t |} in
  log ("Inserting document with testId: " +:+ testId +:+ " (NO maxTimeMS)...") ;;
  insertResult ← call world (insertOne testDoc operationOptions);
  log ("Insert successful: " +:+ insertedId_of insertResult +:+ nl) ;;
  log rule ;;
  log "STOP NODES NOW! You have 5 seconds..." ;;
  log "   Run in another terminal: docker stop mongo2 mongo3" ;;
  log rule ;;
  sleep 5000 ;;
  log EmptyString ;;
  log "Updating document (NO maxTimeMS)..." ;;
  log "If majority is lost, this will HANG here!" ;;
  t' ← date_now world;
  updateResult ← call world (updateOne testId "updated" t' operationOptions);
  log ("Update successful: " +:+ modifiedCount_of updateResult
       +:+ " document(s) modified" +:+ nl) ;;
  log "Committing transaction (NO maxCommitTimeMS)..." ;;
  log "If majority is lost, commit will HANG here!" ;;
  call world commitTransaction ;;
  log ("Transaction committed successfully!" +:+ nl).

Definition handler : RawFailure -> M unit := catch_block world diagnosis.

Definition runTransactionNoTimeout : M unit :=
  try_catch_finally world body handler.

Definition main : option Z * list Event := main_of runTransactionNoTimeout.
End Run.
End TxNoTimeout.

(** The three inserts of the two hang scripts:
    [for (let i = 0; i < 3; i++) { await insertOne({...}, { session }); log }] *)
Definition three_inserts (world : World) (testId : string) : M unit :=
  for_loop 3 0 1 (fun i =>
    t ← date_now world;
    call world (insertOne {| testId := testId; operationNumber := Some (i + 1);
                             value := "operation-" +:+ pretty (i + 1);
                             timestamp := t |}
                          {| maxTimeMS := None |}) ;;
    log ("  Operation " +:+ pretty (i + 1) +:+ " completed")).

Definition cr : string := String (ascii_of_nat 13) EmptyString.

(** ** The pause script: [runTransactionHangPause] *)

Module TxHangPause.
Definition MONGO_URI : string :=
  "mongodb://mongo1:27017,mongo2:27017,mongo3:27017/?replicaSet=rs0&socketTimeoutMS=0&serverSelectionTimeoutMS=300000".

Definition classify (error : RawFailure) : Category :=
  if name_is error "NotWritablePrimary" || name_is error "NotPrimaryOrSecondary"
  then TopologyChange
  else Unclassified.

Definition diagnosis (error : RawFailure) : list string :=
  match classify error with
  | TopologyChange => ["Replica set topology changed during operation"]
  | _ => ["Error: " +:+ name_or (codeName error) "Unknown"]
  end.

Definition transactionOptions : TransactionOptions :=
  {| writeConcern := majority_write_concern None;
     readConcern := majority_read_concern;
     maxCommitTimeMS := None |}.

Section Run.
Context (world : World).

(** [for (let i = 15; i > 0; i--) { ...; await sleep(1000) }] *)
Definition countdown : M unit :=
  for_loop 15 15 (-1) (fun i =>
    (if bool_decide (i = 5)
     then log (nl +:+ nl +:+ "   LAST CHANCE! Run: docker pause mongo2 mongo3" +:+ nl)
     else mret ()) ;;
    stdout_write (cr +:+ "   Committing in " +:+ pretty i +:+ " seconds... ") ;;
    sleep 1000).

Definition body : M unit :=
  log rule ;;
  log "MongoDB Transaction Test - DOCKER PAUSE METHOD" ;;
  log rule ;;
  log ("Connection URI: " +:+ MONGO_URI) ;;
  log EmptyString ;;
  log "This test will hang indefinitely on commit!" ;;
  log "   socketTimeoutMS=0 (infinite socket timeout)" ;;
  log "   No maxCommitTimeMS on transaction" ;;
  log "   No wtimeout in write concern" ;;
  log EmptyString ;;
  log "Use Ctrl+C to kill if it hangs." ;;
  log rule ;;
  log EmptyString ;;
  log "Connecting to MongoDB replica set..." ;;
  call world (connect MONGO_URI) ;;
  log ("Connected successfully!" +:+ nl) ;;
  call world startSession ;;
  set_session (Some TheSession) ;;
  log ("Session started" +:+ nl) ;;
  call world (startTransaction transactionOptions) ;;
  log ("Transaction started (NO TIMEOUTS)" +:+ nl) ;;
  t ← date_now world;
  let testId := "test-pause-" +:+ pretty t in
  log "Performing transaction operations..." ;;
  three_inserts world testId ;;
  log ("All operations completed successfully!" +:+ nl) ;;
  log rule ;;
  log "PAUSE CONTAINERS NOW!" ;;
  log EmptyString ;;
  log "   The transaction operations are done, but NOT committed yet." ;;
  log "   Pause containers so commit will hang:" ;;
  log EmptyString ;;
  log "   Run: docker pause mongo2 mongo3" ;;
  log EmptyString ;;
  log "   You have 15 seconds..." ;;
  log rule ;;
  countdown ;;
  log nl ;;
  log "NOW attempting commit..." ;;
  log "Committing transaction (NO maxCommitTimeMS, NO wtimeout)..." ;;
  log "THIS WILL HANG INDEFINITELY if containers are paused!" ;;
  log "The driver will keep trying to reach majority forever..." ;;
  log EmptyString ;;
  call world commitTransaction ;;
  log ("Transaction committed successfully!" +:+ nl).

Definition handler : RawFailure -> M unit := catch_block world diagnosis.

Definition runTransactionHangPause : M unit :=
  try_catch_finally world body handler.

Definition main : option Z * list Event := main_of runTransactionHangPause.
End Run.
End TxHangPause.

(** ** The hang-on-commit script: [runTransactionHangOnCommit] *)

Module TxHangOnCommit.
Definition MONGO_URI : string :=
  "mongodb://mongo1:27017,mongo2:27017,mongo3:27017/?replicaSet=rs0&socketTimeoutMS=0&serverSelectionTimeoutMS=300000".

Definition classify (error : RawFailure) : Category :=
  if matches_operation_timeout error then OperationTimeout
  else if matches_write_concern error then WriteConcernTimeout
  else if matches_commit_timeout error then CommitTimeout
  else if retryableLabelPresent error then Retryable
  else if name_is error "NotPrimaryOrSecondary"
          || name_is error "InterruptedDueToReplStateChange" then TopologyChange
  else Unclassified.

Definition diagnosis (error : RawFailure) : list string :=
  match classify error with
  | OperationTimeout =>
      ["MaxTimeMSExpired: Operation exceeded maxTimeMS timeout";
       "   NOTE: This should NOT happen in no-timeout mode!"]
  | WriteConcernTimeout =>
      ["WriteConcernFailed: Write concern could not be satisfied";
       "   NOTE: This should NOT happen without wtimeout!"]
  | CommitTimeout =>
      ["ExceededTimeLimit: Transaction exceeded maxCommitTimeMS";
       "   NOTE: This should NOT happen without maxCommitTimeMS!"]
  | Retryable => ["TransientTransactionError: Transaction can be retried"]
  | TopologyChange => ["Replica set topology changed during operation"]
  | Unclassified => ["Other Error: " +:+ name_or (codeName error) "Unknown"]
  end.

Definition transactionOptions : TransactionOptions :=
  {| writeConcern := majority_write_concern None;
     readConcern := majority_read_concern;
     maxCommitTimeMS := None |}.

Section Run.
Context (world : World).

(** [for (let i = 30; i > 0; i--) { ...; await sleep(1000) }] *)
Definition countdown : M unit :=
  for_loop 30 30 (-1) (fun i =>
    (if bool_decide (i = 25)
     then log (nl +:+ nl
               +:+ "   RUN THE PARTITION NOW! (allows time for iptables install)"
               +:+ nl)
     else mret ()) ;;
    (if bool_decide (i = 10)
     then log (nl +:+ nl
               +:+ "   LAST CHANCE! Partition must be active in 10 seconds!" +:+ nl)
     else mret ()) ;;
    stdout_write (cr +:+ "   Committing in " +:+ pretty i +:+ " seconds... ") ;;
    sleep 1000).

Definition body : M unit :=
  log rule ;;
  log "MongoDB Transaction Test - HANG ON COMMIT" ;;
  log rule ;;
  log ("Connection URI: " +:+ MONGO_URI) ;;
  log EmptyString ;;
  log "This test will hang indefinitely on commit!" ;;
  log "   socketTimeoutMS=0 (infinite socket timeout)" ;;
  log "   No maxCommitTimeMS on transaction" ;;
  log "   No wtimeout in write concern" ;;
  log EmptyString ;;
  log "Use Ctrl+C to kill if it hangs." ;;
  log rule ;;
  log EmptyString ;;
  log "Connecting to MongoDB replica set..." ;;
  call world (connect MONGO_URI) ;;
  log ("Connected successfully!" +:+ nl) ;;
  call world startSession ;;
  set_session (Some TheSession) ;;
  log ("Session started" +:+ nl) ;;
  call world (startTransaction transactionOptions) ;;
  log ("Transaction started (NO TIMEOUTS)" +:+ nl) ;;
  t ← date_now world;
  let testId := "test-hangcommit-" +:+ pretty t in
  log "Performing transaction operations..." ;;
  three_inserts world testId ;;
  log ("All operations completed successfully!" +:+ nl) ;;
  log rule ;;
  log "CRITICAL: STOP NODES NOW!" ;;
  log EmptyString ;;
  log "   The transaction operations are done, but NOT committed yet." ;;
  log "   Kill nodes now so that commit will hang:" ;;
  log EmptyString ;;
  log "   Option 1 (network partition - more realistic):" ;;
  log "   npm run partition:member -- mongo2 mongo3" ;;
  log EmptyString ;;
  log "   Option 2 (stop containers):" ;;
  log "   docker stop mongo2 mongo3" ;;
  log EmptyString ;;
  log "   You have 30 seconds..." ;;
  log rule ;;
  countdown ;;
  log nl ;;
  log "Waiting 5 more seconds to ensure partition is fully active..." ;;
  sleep 5000 ;;
  log EmptyString ;;
  log "NOW attempting commit..." ;;
  log "Committing transaction (NO maxCommitTimeMS, NO wtimeout)..." ;;
  log "THIS WILL HANG INDEFINITELY if nodes are down!" ;;
  log "The driver will keep trying to reach majority forever..." ;;
  log EmptyString ;;
  call world commitTransaction ;;
  log ("Transaction committed successfully!" +:+ nl).

Definition handler : RawFailure -> M unit := catch_block world diagnosis.

Definition runTransactionHangOnCommit : M unit :=
  try_catch_finally world body handler.

Definition main : option Z * list Event := main_of runTransactionHangOnCommit.
End Run.
End TxHangOnCommit.

(** ** Reading the scripts' configuration *)

(** The three timeout knobs of the bounded script. *)
Inductive Knob : Type :=
| WriteConcernKnob      (* W_TIMEOUT_MS  -> writeConcern.wtimeout *)
| CommitKnob            (* MAX_COMMIT_MS -> maxCommitTimeMS *)
| OperationKnob.        (* OP_MAXTIME_MS -> maxTimeMS of insertOne / updateOne *)

Definition knob_variable (k : Knob) : string :=
  match k with
  | WriteConcernKnob => "W_TIMEOUT_MS"
  | CommitKnob => "MAX_COMMIT_MS"
  | OperationKnob => "OP_MAXTIME_MS"
  end.

(** The value that the bounded script hands to the driver for a knob; [None]
    would be a field left out, which is the driver's unbounded wait. *)
Definition knob_in_options (k : Knob) (env : Env) : option number :=
  match k with
  | WriteConcernKnob => wtimeout (writeConcern (Tx.transactionOptions env))
  | CommitKnob => maxCommitTimeMS (Tx.transactionOptions env)
  | OperationKnob => maxTimeMS (Tx.operationOptions env)
  end.

Definition bounded_default (k : Knob) : Z :=
  match k with
  | WriteConcernKnob => 2000
  | CommitKnob => 1500
  | OperationKnob => 1000
  end.

(** The query part of a connection string, as [key=value] pairs separated by
    [&] after the first [?]. *)
Fixpoint split_on (c : ascii) (s : string) : list string :=
  match s with
  | EmptyString => [EmptyString]
  | String a rest =>
      let parts := split_on c rest in
      if bool_decide (a = c) then EmptyString :: parts
      else match parts with
           | p :: ps => String a p :: ps
           | [] => [String a EmptyString]
           end
  end.

Definition uri_options (uri : string) : list (string * string) :=
  match split_on "?" uri with
  | _ :: query :: _ =>
      (fun kv => match split_on "=" kv with
                 | k :: v :: _ => (k, v)
                 | k :: [] => (k, EmptyString)
                 | [] => (EmptyString, EmptyString)
                 end) <$> split_on "&" query
  | _ => []
  end.

(** The value of option [key] in a connection string, if it is set there. *)
Definition uri_option (uri key : string) : option string :=
  (fun found => found.2.2) <$> list_find (fun kv => kv.1 = key) (uri_options uri).

(** ** The four scripts side by side *)

Inductive Script : Type :=
| RunTransaction (env : Env)
| RunTransactionNoTimeout
| RunTransactionHangPause
| RunTransactionHangOnCommit.

Definition uri_of (sc : Script) : string :=
  match sc with
  | RunTransaction _ => Tx.MONGO_URI
  | RunTransactionNoTimeout => TxNoTimeout.MONGO_URI
  | RunTransactionHangPause => TxHangPause.MONGO_URI
  | RunTransactionHangOnCommit => TxHangOnCommit.MONGO_URI
  end.

Definition transactionOptions_of (sc : Script) : TransactionOptions :=
  match sc with
  | RunTransaction env => Tx.transactionOptions env
  | RunTransactionNoTimeout => TxNoTimeout.transactionOptions
  | RunTransactionHangPause => TxHangPause.transactionOptions
  | RunTransactionHangOnCommit => TxHangOnCommit.transactionOptions
  end.

Definition operationOptions_of (sc : Script) : OperationOptions :=
  match sc with
  | RunTransaction env => Tx.operationOptions env
  | RunTransactionNoTimeout => TxNoTimeout.operationOptions
  | _ => {| maxTimeMS := None |}
  end.

Definition classify_of (sc : Script) : RawFailure -> Category :=
  match sc with
  | RunTransaction _ => Tx.classify
  | RunTransactionNoTimeout => TxNoTimeout.classify
  | RunTransactionHangPause => TxHangPause.classify
  | RunTransactionHangOnCommit => TxHangOnCommit.classify
  end.

Definition diagnosis_of (sc : Script) : RawFailure -> list string :=
  match sc with
  | RunTransaction _ => Tx.diagnosis
  | RunTransactionNoTimeout => TxNoTimeout.diagnosis
  | RunTransactionHangPause => TxHangPause.diagnosis
  | RunTransactionHangOnCommit => TxHangOnCommit.diagnosis
  end.

Definition body_of (world : World) (sc : Script) : M unit :=
  match sc with
  | RunTransaction env => Tx.body world env
  | RunTransactionNoTimeout => TxNoTimeout.body world
  | RunTransactionHangPause => TxHangPause.body world
  | RunTransactionHangOnCommit => TxHangOnCommit.body world
  end.

Definition run_of (world : World) (sc : Script) : M unit :=
  match sc with
  | RunTransaction env => Tx.runTransaction world env
  | RunTransactionNoTimeout => TxNoTimeout.runTransactionNoTimeout world
  | RunTransactionHangPause => TxHangPause.runTransactionHangPause world
  | RunTransactionHangOnCommit => TxHangOnCommit.runTransactionHangOnCommit world
  end.

Definition main (world : World) (sc : Script) : option Z * list Event :=
  match sc with
  | RunTransaction env => Tx.main world env
  | RunTransactionNoTimeout => TxNoTimeout.main world
  | RunTransactionHangPause => TxHangPause.main world
  | RunTransactionHangOnCommit => TxHangOnCommit.main world
  end.

(** The scripts that set no timeout anywhere. *)
Definition unbounded (sc : Script) : bool :=
  match sc with
  | RunTransaction _ => false
  | _ => true
  end.

(** ** Trace predicates *)

Definition is_abort (e : Event) : bool :=
  match e with
  | EvCall abortTransaction => true
  | _ => false
  end.

Definition is_console_or_exit (e : Event) : bool :=
  match e with
  | EvLog _ | EvError _ | EvErrorObject _ _ | EvWrite _ | EvExit _ => true
  | _ => false
  end.

(** How many aborts were attempted. *)
Definition aborts (tr : list Event) : nat := length (filter (fun e => is_abort e = true) tr).

Definition abort_line : Event := EvLog "Attempting to abort transaction...".

(** The events with which every [catch] block begins: banner, raw fields,
    diagnosis. *)
Definition catch_preamble (diagnosis : RawFailure -> list string)
    (error : RawFailure) : list Event :=
  [EvError (nl +:+ rule); EvError "ERROR OCCURRED"; EvError rule;
   EvError ("Error Code: " +:+ show_code (code error));
   EvError ("Error Name: " +:+ name_or (codeName error) "N/A");
   EvError ("Error Message: " +:+ message error +:+ nl)]
  ++ (EvError <$> diagnosis error) ++ [EvError (rule +:+ nl)].


(** A driver call that takes a connection string or options carries these;
    any other event passes. *)
Definition carries (uri : string) (topts : TransactionOptions)
    (oopts : OperationOptions) (e : Event) : Prop :=
  match e with
  | EvCall (connect u) => u = uri
  | EvCall (startTransaction o) => o = topts
  | EvCall (insertOne _ o) => o = oopts
  | EvCall (updateOne _ _ _ o) => o = oopts
  | _ => True
  end.

(** The steps that matter for ordering: the writes, the waits, the commit. *)
Inductive Step : Type :=
| StepInsert (n : option Z)    (* insertOne of the document numbered n *)
| StepUpdate
| StepWait (ms : Z)
| StepCommit.

Definition step_of (e : Event) : option Step :=
  match e with
  | EvCall (insertOne doc _) => Some (StepInsert (operationNumber doc))
  | EvCall (updateOne _ _ _ _) => Some StepUpdate
  | EvCall commitTransaction => Some StepCommit
  | EvSleep ms => Some (StepWait ms)
  | _ => None
  end.

Definition steps (tr : list Event) : list Step := omap step_of tr.

(** ** Judgements on computations, closed under the monad's operations *)

(** [m] only appends to the trace, and what it appends satisfies [P]. *)
Definition appends {A} (P : Event -> Prop) (m : M A) : Prop :=
  ∀ s, ∃ evs, trace (m s).2 = trace s ++ evs ∧ Forall P evs.

(** [m] works through [plan] in order: a run of [m] that returns has done
    the steps of [plan] up to what is left in [rest]; any other run has done
    some prefix of [plan]. *)
Definition follows {A} (m : M A) (plan rest : list Step) : Prop :=
  ∀ s, ∃ evs, trace (m s).2 = trace s ++ evs ∧
    match (m s).1 with
    | Returned _ => plan = steps evs ++ rest
    | _ => steps evs `prefix_of` plan
    end.

(** [m] goes no further than a call [c] that never settles: if [c] is among
    the appended events it is the last of them and [m] stays pending. *)
Definition stops_at {A} (c : Call) (m : M A) : Prop :=
  ∀ s, ∃ evs, trace (m s).2 = trace s ++ evs ∧
    (EvCall c ∈ evs → (m s).1 = Pending ∧ last evs = Some (EvCall c)).

(** [m] issues the event [e] in every run. *)
Definition issues {A} (e : Event) (m : M A) : Prop :=
  ∀ s, e ∈ trace (m s).2.

(** [m] returns in every run. *)
Definition returns {A} (m : M A) : Prop :=
  ∀ s, ∃ a s', m s = (Returned a, s').

(** ** The order of steps in the two scripts that wait before the commit *)

Definition three_inserts_plan : list Step :=
  [StepInsert (Some 1); StepInsert (Some 2); StepInsert (Some 3)].

(** [runTransactionHangPause]: three inserts, then fifteen waits of a second. *)
Definition hang_pause_before_commit : list Step :=
  three_inserts_plan ++ replicate 15 (StepWait 1000).

(** [runTransactionHangOnCommit]: three inserts, then thirty waits of a
    second and one of five seconds. *)
Definition hang_on_commit_before_commit : list Step :=
  three_inserts_plan ++ replicate 30 (StepWait 1000) ++ [StepWait 5000].

(** [runTransaction] and [runTransactionNoTimeout]: one insert, one wait, one
    update. *)
Definition bounded_before_commit : list Step :=
  [StepInsert None; StepWait 700; StepUpdate].

Definition no_timeout_before_commit : list Step :=
  [StepInsert None; StepWait 5000; StepUpdate].

(** ** Sample worlds and failures *)

Definition is_start (e : Event) : bool :=
  match e with
  | EvCall (startTransaction _) => true
  | _ => false
  end.

Definition is_commit_or_abort (e : Event) : bool :=
  match e with
  | EvCall commitTransaction | EvCall abortTransaction => true
  | _ => false
  end.

(** A session is in a transaction from [startTransaction] until a commit or
    an abort is asked for. *)
Definition in_progress (h : list Event) : bool :=
  existsb is_start h && negb (existsb is_commit_or_abort h).

Definition transient_label (l : string) : bool :=
  bool_decide (l = "TransientTransactionError").

Definition no_label (l : string) : bool := false.

Definition unknown_commit_result_label (l : string) : bool :=
  bool_decide (l = "UnknownTransactionCommitResult").

(** A healthy replica set: everything resolves. *)
Definition healthy : World :=
  {| reply := fun _ c =>
       match c with
       | insertOne _ _ => Resolves (Inserted "65f0c0ffee")
       | updateOne _ _ _ _ => Resolves (Updated 1)
       | _ => Resolves Done
       end;
     inTransaction := in_progress;
     now := fun _ => 1700000000000 |}.

Definition operation_timed_out : RawFailure :=
  {| code := Some 50; codeName := Some "MaxTimeMSExpired";
     message := "operation exceeded time limit";
     hasErrorLabel := Some no_label |}.

Definition connection_closed : RawFailure :=
  {| code := None; codeName := None;
     message := "connection closed";
     hasErrorLabel := None |}.

(** The second write times out, and the abort that follows fails too. *)
Definition update_times_out : World :=
  {| reply := fun _ c =>
       match c with
       | insertOne _ _ => Resolves (Inserted "65f0c0ffee")
       | updateOne _ _ _ _ => Rejects operation_timed_out
       | abortTransaction => Rejects connection_closed
       | _ => Resolves Done
       end;
     inTransaction := in_progress;
     now := fun _ => 1700000000000 |}.

(** Two of three members are paused: the commit never settles. *)
Definition commit_hangs : World :=
  {| reply := fun _ c =>
       match c with
       | insertOne _ _ => Resolves (Inserted "65f0c0ffee")
       | updateOne _ _ _ _ => Resolves (Updated 1)
       | commitTransaction => NeverSettles
       | _ => Resolves Done
       end;
     inTransaction := in_progress;
     now := fun _ => 1700000000000 |}.


(** A failure with the retryable label, the commit-timeout name and the
    operation-timeout code. *)
Definition labelled_mixed_failure : RawFailure :=
  {| code := Some 50; codeName := Some "ExceededTimeLimit";
     message := "operation exceeded time limit";
     hasErrorLabel := Some transient_label |}.

Definition labelled_commit_timeout : RawFailure :=
  {| code := Some 262; codeName := Some "ExceededTimeLimit";
     message := "operation exceeded time limit";
     hasErrorLabel := Some transient_label |}.

(** What a commit sent to a node that has just stepped down comes back with. *)
Definition not_writable_primary : RawFailure :=
  {| code := Some 10107; codeName := Some "NotWritablePrimary";
     message := "not primary";
     hasErrorLabel := Some unknown_commit_result_label |}.

Definition interrupted_by_state_change : RawFailure :=
  {| code := Some 11602; codeName := Some "InterruptedDueToReplStateChange";
     message := "operation was interrupted";
     hasErrorLabel := Some no_label |}.

(** A symbolic name that tells of a change of topology or role. *)
Definition names_topology_change (error : RawFailure) : bool :=
  name_is error "NotWritablePrimary"
  || name_is error "NotPrimaryOrSecondary"
  || name_is error "InterruptedDueToReplStateChange".

(** The scripts whose [catch] block dispatches on the timeout codes and on the
    retryable label ([runTransactionHangPause] looks at the topology names
    only). *)
Definition dispatches_on_timeouts (sc : Script) : bool :=
  match sc with
  | RunTransactionHangPause => false
  | _ => true
  end.



(** ** The driver calls of a run, by kind

    What the sections below say about the protocol of a run -- which driver
    calls it makes, in which order, and what it does with the [session]
    variable -- is said over the kinds of the calls. *)

Inductive Kind : Type :=
| KConnect | KCreateIndex | KStartSession | KStartTransaction
| KInsert | KUpdate | KCommit | KAbort | KEndSession | KClose.

Global Instance Kind_eq_dec : EqDecision Kind.
Proof. solve_decision. Defined.

Global Instance ClientSession_eq_dec : EqDecision ClientSession.
Proof. solve_decision. Defined.

Definition kind_of_call (c : Call) : Kind :=
  match c with
  | connect _ => KConnect
  | createIndex => KCreateIndex
  | startSession => KStartSession
  | startTransaction _ => KStartTransaction
  | insertOne _ _ => KInsert
  | updateOne _ _ _ _ => KUpdate
  | commitTransaction => KCommit
  | abortTransaction => KAbort
  | endSession => KEndSession
  | close => KClose
  end.

Definition kind_of (e : Event) : option Kind :=
  match e with
  | EvCall c => Some (kind_of_call c)
  | _ => None
  end.

(** The driver calls of a trace, by kind, in the order they were issued. *)
Definition kinds (tr : list Event) : list Kind := omap kind_of tr.

(** What a straight-line piece of a script does to the calls issued so far
    and to the [session] variable. *)
Inductive Move : Type :=
| MCall (k : Kind)
| MSet (v : option ClientSession).

Definition View : Type := list Kind * option ClientSession.

Definition view (s : State) : View := (kinds (trace s), session s).

Definition move (v : View) (a : Move) : View :=
  match a with
  | MCall k => (v.1 ++ [k], v.2)
  | MSet x => (v.1, x)
  end.

Definition moves (l : list Move) (v : View) : View := foldl move v l.

(** Where a run of [plan] can stop short: right after any of its calls. *)
Fixpoint stops (plan : list Move) (v : View) : list View :=
  match plan with
  | [] => []
  | MCall k :: rest => move v (MCall k) :: stops rest (move v (MCall k))
  | MSet x :: rest => stops rest (move v (MSet x))
  end.

(** [m] carries out [plan] down to [rest] when it returns, and otherwise
    stops right after one of the calls of [plan]. *)
Definition refines {A} (m : M A) (plan rest : list Move) : Prop :=
  ∀ s,
    match (m s).1 with
    | Returned _ => ∃ done, plan = done ++ rest ∧ view (m s).2 = moves done (view s)
    | _ => ∃ done k r, plan = done ++ MCall k :: r
                       ∧ view (m s).2 = moves (done ++ [MCall k]) (view s)
    end.

Definition body_plan (sc : Script) : list Move :=
  match sc with
  | RunTransaction _ | RunTransactionNoTimeout =>
      [MCall KConnect; MCall KCreateIndex; MCall KStartSession;
       MSet (Some TheSession); MCall KStartTransaction;
       MCall KInsert; MCall KUpdate; MCall KCommit]
  | _ =>
      [MCall KConnect; MCall KStartSession;
       MSet (Some TheSession); MCall KStartTransaction;
       MCall KInsert; MCall KInsert; MCall KInsert; MCall KCommit]
  end.

Definition body_kinds (sc : Script) : list Kind := (moves (body_plan sc) ([], None)).1.

Definition optional {A} (b : bool) (x : A) : list A := if b then [x] else [].

(** The calls issued by a body and its [session] variable go together: the
    variable is set exactly when the body got as far as starting the
    transaction. *)
Definition session_tracks (sc : Script) (v : View) : bool :=
  bool_decide (v.1 `prefix_of` body_kinds sc)
  && bool_decide (v.2 = Some TheSession ↔ KStartTransaction ∈ v.1)
  && bool_decide (v.2 = None ↔ KStartTransaction ∉ v.1).

(** A replica set on which ending the session fails. *)
Definition end_session_fails (err : RawFailure) : World :=
  {| reply := fun _ c =>
       match c with
       | insertOne _ _ => Resolves (Inserted "65f0c0ffee")
       | updateOne _ _ _ _ => Resolves (Updated 1)
       | endSession => Rejects err
       | _ => Resolves Done
       end;
     inTransaction := in_progress;
     now := fun _ => 1700000000000 |}.

(** The second write times out after the server has given up the
    transaction: the session is there, but it is in no transaction. *)
Definition transaction_given_up : World :=
  {| reply := reply update_times_out;
     inTransaction := fun _ => false;
     now := fun _ => 1700000000000 |}.

(** ** Runs on a replica set that cooperates, and runs that do not return *)

(** A replica set on which every call resolves, except that creating the
    index may be refused (it exists already). *)
Definition cooperative (world : World) : Prop :=
  (∀ h c, c ≠ createIndex → ∃ r, reply world h c = Resolves r)
  ∧ (∀ h, reply world h createIndex ≠ NeverSettles).

Definition is_error_line (e : Event) : bool :=
  match e with
  | EvError _ | EvErrorObject _ _ => true
  | _ => false
  end.

(** [m] ends, when it returns, with the event [e]. *)
Definition ends_with {A} (e : Event) (m : M A) : Prop :=
  ∀ s, match (m s).1 with
       | Returned _ => last (trace (m s).2) = Some e
       | _ => True
       end.

(** Where a run of [m] does not return, the driver is to blame: the last
    event is a driver call, other than the creation of the index, that the
    world rejected with the very error thrown, or a driver call that the
    world never settles. *)
Definition blames (world : World) {A} (m : M A) : Prop :=
  ∀ s, match (m s).1 with
       | Returned _ => True
       | Threw err =>
           ∃ h c, trace (m s).2 = h ++ [EvCall c] ∧ reply world h c = Rejects err
                  ∧ c ≠ createIndex
       | Pending =>
           ∃ h c, trace (m s).2 = h ++ [EvCall c] ∧ reply world h c = NeverSettles
       end.

(** The [testId] that a write is about: the one of the inserted document,
    or the one that the update filters on. *)
Definition write_target (e : Event) : option string :=
  match e with
  | EvCall (insertOne doc _) => Some (testId doc)
  | EvCall (updateOne filter_testId _ _ _) => Some filter_testId
  | _ => None
  end.

Definition targets (id : string) (e : Event) : Prop :=
  ∀ i, write_target e = Some i → i = id.

(** All the writes that [m] appends are about one [testId]. *)
Definition one_target {A} (m : M A) : Prop :=
  ∀ s, ∃ id evs, trace (m s).2 = trace s ++ evs ∧ Forall (targets id) evs.

(** ** What a run makes of the driver's answers *)

(** A run heeds the driver's answers: of the calls that [m] issues, one
    that is rejected ends [m] there and then with the error it was rejected
    with, unless it is the creation of the index, whose failure is
    swallowed; and one that never settles leaves [m] waiting, as its last
    event.  So a call after which [m] went on has resolved. *)
Definition heeds (world : World) {A} (m : M A) : Prop :=
  ∀ s, ∃ evs, trace (m s).2 = trace s ++ evs ∧
    ∀ h c rest, evs = h ++ EvCall c :: rest →
      match reply world (trace s ++ h) c with
      | Resolves _ => True
      | Rejects err => c = createIndex ∨ (rest = [] ∧ (m s).1 = Threw err)
      | NeverSettles => rest = [] ∧ (m s).1 = Pending
      end.

(** What the [catch] block, the [finally] block and the last statement of a
    script may add to a trace: console output, the exit, and the calls that
    clean up. *)
Definition is_cleanup (e : Event) : bool :=
  match e with
  | EvCall abortTransaction | EvCall endSession | EvCall close => true
  | EvCall _ | EvSleep _ => false
  | _ => true
  end.

(** The calls of a [try] block whose failure the [catch] block reports. *)
Definition reported_when_rejected (c : Call) : bool :=
  match c with
  | createIndex | abortTransaction | endSession | close => false
  | _ => true
  end.

(** The calls of the scripts that wait before the commit that come before
    it. *)
Definition precedes_commit (c : Call) : bool :=
  match c with
  | connect _ | startSession | startTransaction _ | insertOne _ _ => true
  | _ => false
  end.

(** ** Integers in the environment *)

(** Strings made of white space only. *)
Fixpoint all_white_space (s : string) : bool :=
  match s with
  | String c rest => is_white_space c && all_white_space rest
  | EmptyString => true
  end.

Definition starts_with_digit (s : string) : bool :=
  match s with
  | String c _ => bool_decide (is_Some (digit_value c))
  | EmptyString => false
  end.

(** The largest magnitude up to which every integer is a double: 2^53. *)
Definition MAX_EXACT : Z := 9007199254740992.


(** [MAX_COMMIT_MS=' -250ms'] *)
Definition padded_commit_env : Env := {[ "MAX_COMMIT_MS" := " -250ms" ]}.

(** ** The RPC smoke test: [testWorkerTimeouts]

    The other program of [test-worker-timeouts.js]: it asks a worker, over
    RPC, to create, fetch and list a wallet.  Modelling conventions:
      - a request payload is the object that the script serialises
        ([Buffer.from(JSON.stringify(o))] is [o], without the properties
        whose value is [undefined]); a response is what
        [JSON.parse(buf.toString())] makes of the buffer that the promise
        resolves with;
      - what a rejected promise carries is an [Error], with the [message]
        and [stack] that the [catch] block prints;
      - [console.log(label, v)] is recorded with its arguments, not with the
        text that the console makes of them. *)

Module Worker.

#[local] Set Warnings "-register-all".

(** What [JSON.parse] returns.  An object lists each of its keys once. *)
Inductive JSON : Type :=
| JNull
| JBool (b : bool)
| JNum (z : Z)
| JStr (s : string)
| JArr (items : list JSON)
| JObj (fields : list (string * JSON)).

(** A JavaScript value of the script: a parsed value, or [undefined]. *)
Inductive Value : Type :=
| Undefined
| Parsed (v : JSON).

(** The properties that the script reads: [x[0]], [x.id], [x.wallets],
    [x.length]. *)
Inductive Property : Type := P0 | Pid | Pwallets | Plength.

Definition property_name (p : Property) : string :=
  match p with
  | P0 => "0"
  | Pid => "id"
  | Pwallets => "wallets"
  | Plength => "length"
  end.

(** What the script can find thrown at it. *)
Inductive Thrown : Type :=
| RequestError (message stack : string)   (* a rejected [rpc] promise *)
| SyntaxError                             (* [JSON.parse] of a body that is not JSON *)
| TypeError (base : Value) (p : Property). (* a property of [undefined] or [null] *)

Fixpoint own_property (key : string) (fields : list (string * JSON)) : Value :=
  match fields with
  | [] => Undefined
  | (k, v) :: rest => if decide (k = key) then Parsed v else own_property key rest
  end.

Definition string_length (s : string) : Z := Z.of_nat (String.length s).

(** [base[p]] / [base.p] *)
Definition get (base : Value) (p : Property) : Thrown + Value :=
  match base with
  | Undefined | Parsed JNull => inl (TypeError base p)
  | Parsed (JObj fields) => inr (own_property (property_name p) fields)
  | Parsed (JArr items) =>
      match p with
      | P0 => inr (from_option Parsed Undefined (head items))
      | Plength => inr (Parsed (JNum (Z.of_nat (length items))))
      | _ => inr Undefined
      end
  | Parsed (JStr s) =>
      match p with
      | P0 => match s with
              | String c _ => inr (Parsed (JStr (String c EmptyString)))
              | EmptyString => inr Undefined
              end
      | Plength => inr (Parsed (JNum (string_length s)))
      | _ => inr Undefined
      end
  | Parsed (JNum _) | Parsed (JBool _) => inr Undefined
  end.

(** A property of an object literal under [JSON.stringify]: one whose value
    is [undefined] is left out. *)
Definition field (key : string) (v : Value) : list (string * JSON) :=
  match v with
  | Undefined => []
  | Parsed j => [(key, j)]
  end.

Definition hex_value (c : ascii) : option Z :=
  let n := Z.of_nat (nat_of_ascii c) in
  if (48 <=? n) && (n <=? 57) then Some (n - 48)
  else if (65 <=? n) && (n <=? 70) then Some (n - 55)
  else if (97 <=? n) && (n <=? 102) then Some (n - 87)
  else None.

(** [Buffer.from(s, 'hex')]: two digits a byte, cut short at the first pair
    that is not two hexadecimal digits. *)
Fixpoint Buffer_from_hex (s : string) : list Z :=
  match s with
  | String a (String b rest) =>
      match hex_value a, hex_value b with
      | Some x, Some y => (16 * x + y) :: Buffer_from_hex rest
      | _, _ => []
      end
  | _ => []
  end.

Inductive RpcEvent : Type :=
| NewRPC                                                   (* new RPC() *)
| Request (key : list Z) (method : string) (payload : JSON) (* rpc.request *)
| Destroy                                                  (* rpc.destroy() *)
| Log (line : string)                                      (* console.log(line) *)
| LogValue (label : string) (v : Value)                    (* console.log(label, v) *)
| Error (line : string)                                    (* console.error(line) *)
| ErrorMessage (label : string) (err : Thrown)             (* console.error(label, err.message) *)
| ErrorStack (label : string) (err : Thrown)               (* console.error(label, err.stack) *)
| ErrorObject (err : Thrown).                              (* console.error(err) *)

Inductive Answer : Type :=
| Answers (body : option JSON)          (* resolved; [None]: the body is not JSON *)
| Refuses (message stack : string)
| Silent.

(** The worker at the other end, and the clock. *)
Record Peer : Type := {
  answer : list RpcEvent -> list Z -> string -> JSON -> Answer;
  destroyed : list RpcEvent -> Answer;
  clock : list RpcEvent -> Z
}.

Inductive TaskOutcome (A : Type) : Type :=
| Ret (a : A)
| Throw (err : Thrown)
| Wait                     (* awaiting a promise that never settles *)
| Exit (status : Z).       (* process.exit(status) *)
Arguments Ret {A} a.
Arguments Throw {A} err.
Arguments Wait {A}.
Arguments Exit {A} status.

Definition Task (A : Type) : Type := list RpcEvent -> TaskOutcome A * list RpcEvent.

Global Instance Task_ret : MRet Task := fun A a tr => (Ret a, tr).

Global Instance Task_bind : MBind Task := fun A B f m tr =>
  match m tr with
  | (Ret a, tr') => f a tr'
  | (Throw e, tr') => (Throw e, tr')
  | (Wait, tr') => (Wait, tr')
  | (Exit n, tr') => (Exit n, tr')
  end.

Definition say (e : RpcEvent) : Task unit := fun tr => (Ret (), tr ++ [e]).

Definition process_exit {A} (status : Z) : Task A := fun tr => (Exit status, tr).

Definition raise {A} (err : Thrown) : Task A := fun tr => (Throw err, tr).

Definition lift {A} (r : Thrown + A) : Task A :=
  match r with
  | inl err => raise err
  | inr a => mret a
  end.

(** [try { body } catch (err) { handler }] *)
Definition task_catch {A} (body : Task A) (handler : Thrown -> Task A) : Task A :=
  fun tr =>
    match body tr with
    | (Throw e, tr') => handler e tr'
    | other => other
    end.

(** [try { body } finally { finalizer }] *)
Definition task_finally {A} (body : Task A) (finalizer : Task unit) : Task A :=
  fun tr =>
    match body tr with
    | (Wait, tr') => (Wait, tr')
    | (Exit n, tr') => (Exit n, tr')
    | (settled, tr') =>
        match finalizer tr' with
        | (Ret _, tr'') => (settled, tr'')
        | (Throw e, tr'') => (Throw e, tr'')
        | (Wait, tr'') => (Wait, tr'')
        | (Exit n, tr'') => (Exit n, tr'')
        end
    end.

Section Run.
Context (peer : Peer).

(** [JSON.parse((await rpc.request(key, method, payload)).toString())] *)
Definition request (key : list Z) (method : string) (payload : JSON) : Task JSON :=
  fun tr =>
    let tr' := tr ++ [Request key method payload] in
    match answer peer tr key method payload with
    | Answers (Some body) => (Ret body, tr')
    | Answers None => (Throw SyntaxError, tr')
    | Refuses message stack => (Throw (RequestError message stack), tr')
    | Silent => (Wait, tr')
    end.

(** [await rpc.destroy()] *)
Definition destroy : Task unit :=
  fun tr =>
    let tr' := tr ++ [Destroy] in
    match destroyed peer tr with
    | Answers _ => (Ret (), tr')
    | Refuses message stack => (Throw (RequestError message stack), tr')
    | Silent => (Wait, tr')
    end.

Definition Date_now : Task Z := fun tr => (Ret (clock peer tr), tr).

(** [!apiKeyHex] *)
Definition missing (apiKeyHex : option string) : bool :=
  match apiKeyHex with
  | None | Some EmptyString => true
  | Some _ => false
  end.

Definition wallet (userId : string) : JSON :=
  JObj [("userId", JStr userId); ("type", JStr "channel");
        ("name", JStr "Test Wallet"); ("enabled", JBool true);
        ("channelId", JStr "channel-test");
        ("addresses", JObj [("ethereum", JStr ("0x" +:+ repeat_string "1" 40))])].

Definition operations (apiKey : list Z) : Task unit :=
  say (Log "Creating a wallet (writes to MongoDB)...") ;;
  t ← Date_now;
  let userId := "test-user-" +:+ pretty t in
  let addPayload := JObj [("userId", JStr userId); ("wallets", JArr [wallet userId])] in
  result ← request apiKey "addWallet" addPayload;
  first ← lift (get (Parsed result) P0);
  id ← lift (get first Pid);
  say (LogValue "Wallet created:" id) ;;
  say (Log (nl +:+ "Fetching wallet (reads from MongoDB)...")) ;;
  let fetchPayload := JObj (field "id" id) in
  fetchResult ← request apiKey "getWallet" fetchPayload;
  fetched ← lift (get (Parsed fetchResult) Pid);
  say (LogValue "Wallet fetched:" fetched) ;;
  say (Log (nl +:+ "Listing user wallets (MongoDB query)...")) ;;
  let listPayload := JObj [("userId", JStr userId)] in
  listResult ← request apiKey "listWallets" listPayload;
  wallets ← lift (get (Parsed listResult) Pwallets);
  count ← lift (get wallets Plength);
  say (LogValue "Wallets listed:" count) ;;
  say (Log (nl +:+ "All operations completed successfully!")) ;;
  say (Log (nl +:+ "Now you can test failure scenarios:")) ;;
  say (Log "   1. Keep this script running") ;;
  say (Log "   2. In another terminal: docker stop mongo2 mongo3") ;;
  say (Log "   3. Try operations again - they should timeout gracefully").

Definition report (err : Thrown) : Task unit :=
  say (ErrorMessage "Error:" err) ;;
  say (ErrorStack "Stack:" err).

Definition testWorkerTimeouts (apiKeyHex : option string) : Task unit :=
  (if missing apiKeyHex then
     say (Error "Usage: node test-worker-timeouts.js <api-worker-rpc-key>") ;;
     say (Error ("   Get the key from API worker log: " +:+ dq
                 +:+ "wrk-data-shard-api-... rpc public key: XXXXX" +:+ dq)) ;;
     process_exit 1
   else mret ()) ;;
  let hex := default EmptyString apiKeyHex in
  say NewRPC ;;
  let apiKey := Buffer_from_hex hex in
  say (Log "Testing Worker MongoDB Timeouts") ;;
  say (LogValue "Using API key:"
         (Parsed (JStr (String.substring 0 16 hex +:+ "..." +:+ nl)))) ;;
  task_finally (task_catch (operations apiKey) report) destroy.

(** How the process goes on after the call at the bottom of the file. *)
Inductive Ending : Type :=
| Exits (status : Z)    (* process.exit *)
| Settles               (* the promise settled: nothing is left to run *)
| Hangs.                (* an [await] never resumes *)

(** [testWorkerTimeouts(process.argv[2]).catch(console.error)] *)
Definition main (argv2 : option string) : Ending * list RpcEvent :=
  match testWorkerTimeouts argv2 [] with
  | (Ret _, tr) => (Settles, tr)
  | (Throw err, tr) => (Settles, tr ++ [ErrorObject err])
  | (Wait, tr) => (Hangs, tr)
  | (Exit status, tr) => (Exits status, tr)
  end.
End Run.

(** The trace with which the [try] block is entered. *)
Definition greeting (hex : string) : list RpcEvent :=
  [NewRPC; Log "Testing Worker MongoDB Timeouts";
   LogValue "Using API key:" (Parsed (JStr (String.substring 0 16 hex +:+ "..." +:+ nl)))].

(** The RPC operations on a trace. *)
Definition is_rpc (e : RpcEvent) : bool :=
  match e with
  | NewRPC | Request _ _ _ | Destroy => true
  | _ => false
  end.

Definition is_destroy (e : RpcEvent) : bool :=
  match e with
  | Destroy => true
  | _ => false
  end.

Definition rpc_operations (tr : list RpcEvent) : list RpcEvent :=
  filter (fun e => is_rpc e = true) tr.

Definition method_of (e : RpcEvent) : option string :=
  match e with
  | Request _ method _ => Some method
  | _ => None
  end.

Definition methods (tr : list RpcEvent) : list string := omap method_of tr.

(** A peer that answers every request as the test expects. *)
Definition obliging : Peer :=
  {| answer := fun _ _ method _ =>
       if decide (method = "addWallet")
       then Answers (Some (JArr [JObj [("id", JStr "wallet-1")]]))
       else if decide (method = "getWallet")
       then Answers (Some (JObj [("id", JStr "wallet-1")]))
       else Answers (Some (JObj [("wallets", JArr [JObj [("id", JStr "wallet-1")]])]));
     destroyed := fun _ => Answers None;
     clock := fun _ => 1700000000000 |}.

(** A peer that never answers. *)
Definition silent : Peer :=
  {| answer := fun _ _ _ _ => Silent;
     destroyed := fun _ => Silent;
     clock := fun _ => 1700000000000 |}.

Definition channel_closed : Thrown :=
  RequestError "CHANNEL_CLOSED" "Error: CHANNEL_CLOSED".

(** A peer that cannot be reached: every promise is rejected. *)
Definition unreachable : Peer :=
  {| answer := fun _ _ _ _ => Refuses "CHANNEL_CLOSED" "Error: CHANNEL_CLOSED";
     destroyed := fun _ => Answers None;
     clock := fun _ => 1700000000000 |}.

End Worker.

(** * Properties *)

(** ** The monad's operations and the [appends] judgement *)

Section AppendsRules.
Context (world : World) (P : Event -> Prop).

Lemma appends_ret {A} (a : A) : appends P (mret a).
Proof. intros s. exists []. by rewrite app_nil_r. Qed.

Lemma appends_bind {A B} (m : M A) (f : A -> M B) :
  appends P m → (∀ a, appends P (f a)) → appends P (m ≫= f).
Proof.
  intros Hm Hf s. unfold mbind, M_bind.
  destruct (Hm s) as (evs1 & E1 & F1).
  destruct (m s) as [[a|e|] s1]; simpl in *.
  - destruct (Hf a s1) as (evs2 & E2 & F2).
    exists (evs1 ++ evs2). rewrite E2, E1, app_assoc.
    split; [done | by apply Forall_app].
  - by exists evs1.
  - by exists evs1.
Qed.

Lemma appends_emit (e : Event) : P e → appends P (emit e).
Proof. intros He s. exists [e]. split; [done | by constructor]. Qed.

Lemma appends_call (c : Call) : P (EvCall c) → appends P (call world c).
Proof.
  intros He s. exists [EvCall c]. unfold call.
  split; [by destruct (reply world (trace s) c) | by constructor].
Qed.

Lemma appends_get_session : appends P get_session.
Proof. intros s. exists []. by rewrite app_nil_r. Qed.

Lemma appends_set_session v : appends P (set_session v).
Proof. intros s. exists []. by rewrite app_nil_r. Qed.

Lemma appends_in_transaction : appends P (in_transaction world).
Proof. intros s. exists []. by rewrite app_nil_r. Qed.

Lemma appends_date_now : appends P (date_now world).
Proof. intros s. exists []. by rewrite app_nil_r. Qed.

Lemma appends_try_catch {A} (body : M A) (handler : RawFailure -> M A) :
  appends P body → (∀ e, appends P (handler e)) → appends P (try_catch body handler).
Proof.
  intros Hb Hh s. unfold try_catch.
  destruct (Hb s) as (evs1 & E1 & F1).
  destruct (body s) as [[a|e|] s1]; simpl in *.
  - by exists evs1.
  - destruct (Hh e s1) as (evs2 & E2 & F2).
    exists (evs1 ++ evs2). rewrite E2, E1, app_assoc.
    split; [done | by apply Forall_app].
  - by exists evs1.
Qed.

Lemma appends_try_finally {A} (body : M A) (finalizer : M unit) :
  appends P body → appends P finalizer → appends P (try_finally body finalizer).
Proof.
  intros Hb Hf s. unfold try_finally.
  destruct (Hb s) as (evs1 & E1 & F1).
  destruct (body s) as [[a|e|] s1]; simpl in *.
  - destruct (Hf s1) as (evs2 & E2 & F2).
    exists (evs1 ++ evs2).
    split; [| by apply Forall_app].
    destruct (finalizer s1) as [[[]|e'|] s2]; simpl in *;
      by rewrite E2, E1, app_assoc.
  - destruct (Hf s1) as (evs2 & E2 & F2).
    exists (evs1 ++ evs2).
    split; [| by apply Forall_app].
    destruct (finalizer s1) as [[[]|e'|] s2]; simpl in *;
      by rewrite E2, E1, app_assoc.
  - by exists evs1.
Qed.

Lemma appends_for_loop (trips : nat) (i step : Z) (body : Z -> M unit) :
  (∀ j, appends P (body j)) → appends P (for_loop trips i step body).
Proof.
  intros Hb. revert i.
  induction trips as [|n IH]; intros i; simpl.
  - apply appends_ret.
  - apply appends_bind; [apply Hb | intros _; apply IH].
Qed.

Lemma appends_error_lines (lines : list string) :
  (∀ l, P (EvError l)) → appends P (error_lines lines).
Proof.
  intros Hl. induction lines as [|l rest IH]; simpl.
  - apply appends_ret.
  - apply appends_bind; [by apply appends_emit | intros _; apply IH].
Qed.
End AppendsRules.

(** One step of a derivation of [appends]: follow the shape of the program. *)
Ltac appends_step :=
  lazy zeta;
  first
    [ apply appends_bind; [| intros ?]
    | apply appends_try_catch; [| intros ?]
    | apply appends_try_finally
    | apply appends_for_loop; intros ?
    | apply appends_error_lines; intros ?
    | apply appends_emit
    | apply appends_call
    | apply appends_get_session
    | apply appends_set_session
    | apply appends_in_transaction
    | apply appends_date_now
    | apply appends_ret
    | match goal with
      | |- appends _ (match ?x with _ => _ end) => destruct x
      end ].

Ltac appends_auto :=
  unfold log, error_log, stdout_write, sleep;
  repeat appends_step.

Lemma run_of_unfold world sc :
  run_of world sc
  = try_catch_finally world (body_of world sc) (catch_block world (diagnosis_of sc)).
Proof. by destruct sc. Qed.

Lemma main_unfold world sc : main world sc = main_of (run_of world sc).
Proof. by destruct sc. Qed.

Ltac unfold_scripts :=
  unfold Tx.body, TxNoTimeout.body, TxHangPause.body, TxHangOnCommit.body,
    TxHangPause.countdown, TxHangOnCommit.countdown, three_inserts,
    catch_block, report_error, attempt_abort, finalizer.

(** No script body asks for an abort: aborting is the [catch] block's. *)
Lemma body_never_aborts world sc :
  appends (fun e => is_abort e = false) (body_of world sc).
Proof. destruct sc; simpl; unfold_scripts; appends_auto; done. Qed.

Lemma finalizer_never_aborts world :
  appends (fun e => is_abort e = false) (finalizer world).
Proof. unfold_scripts; appends_auto; done. Qed.

(** Every driver call of a run carries the script's connection string and
    option objects. *)
Lemma run_carries world sc :
  appends (carries (uri_of sc) (transactionOptions_of sc) (operationOptions_of sc))
          (run_of world sc).
Proof.
  rewrite run_of_unfold. unfold try_catch_finally.
  destruct sc; simpl; unfold_scripts; appends_auto; done.
Qed.

Lemma appends_from_initial {A} P (m : M A) :
  appends P m → Forall P (trace (m initial).2).
Proof. intros H. destruct (H initial) as (evs & -> & F). done. Qed.

Lemma main_of_trace run :
  ∃ tail, (main_of run).2 = trace (run initial).2 ++ tail
          ∧ Forall (fun e => is_console_or_exit e = true) tail.
Proof.
  unfold main_of. destruct (run initial) as [[[]|e|] s]; simpl.
  - eexists; split; [done |]. by repeat constructor.
  - eexists; split; [done |]. by repeat constructor.
  - exists []. by rewrite app_nil_r.
Qed.

Lemma main_carries world sc :
  Forall (carries (uri_of sc) (transactionOptions_of sc) (operationOptions_of sc))
         (main world sc).2.
Proof.
  rewrite main_unfold.
  destruct (main_of_trace (run_of world sc)) as (tail & -> & Htail).
  apply Forall_app. split.
  - apply appends_from_initial, run_carries.
  - eapply Forall_impl; [exact Htail |].
    by intros [] ?.
Qed.

(** ** What the [catch] and [finally] blocks do, exactly *)

Ltac norm_trace :=
  repeat first [rewrite <- app_assoc | progress cbn [app trace session]].

Ltac solve_prefix :=
  repeat first
    [ reflexivity | apply prefix_nil | apply prefix_cons | apply prefix_app
    | apply prefix_app_r; reflexivity ].


Lemma error_lines_run lines s :
  error_lines lines s
  = (Returned (), {| trace := trace s ++ (EvError <$> lines); session := session s |}).
Proof.
  revert s. induction lines as [|l rest IH]; intros [tr se]; simpl.
  - by rewrite app_nil_r.
  - unfold mbind, M_bind, error_log, emit. simpl. rewrite IH. simpl.
    by rewrite <- app_assoc.
Qed.

Lemma catch_block_run world diagnosis e s :
  let h := trace s ++ catch_preamble diagnosis e in
  catch_block world diagnosis e s =
    if bool_decide (is_Some (session s)) && inTransaction world h then
      match reply world (h ++ [abort_line]) abortTransaction with
      | Resolves _ =>
          (Returned (),
           {| trace := h ++ [abort_line; EvCall abortTransaction;
                             EvLog ("Transaction aborted successfully" +:+ nl)];
              session := session s |})
      | Rejects abortError =>
          (Returned (),
           {| trace := h ++ [abort_line; EvCall abortTransaction;
                             EvError ("Failed to abort transaction: "
                                      +:+ message abortError +:+ " " +:+ nl)];
              session := session s |})
      | NeverSettles =>
          (Pending,
           {| trace := h ++ [abort_line; EvCall abortTransaction];
              session := session s |})
      end
    else (Returned (), {| trace := h; session := session s |}).
Proof.
  destruct s as [tr se]. unfold catch_block, report_error, catch_preamble.
  unfold mbind, M_bind, error_log, log, emit. cbn [trace session fst snd].
  rewrite error_lines_run.
  unfold attempt_abort, get_session, in_transaction, try_catch, call, mbind, M_bind,
    log, error_log, emit, abort_line.
  norm_trace.
  destruct se as [[]|]; [| by rewrite bool_decide_eq_false_2; [|intros []]].
  rewrite bool_decide_eq_true_2 by eauto. cbn [andb].
  destruct (inTransaction world _); [| done].
  norm_trace.
  destruct (reply world _ abortTransaction); norm_trace; done.
Qed.

Lemma finalizer_run world s :
  finalizer world s =
    let close_from (h : list Event) :=
      let h1 := h ++ [EvLog "Closing MongoDB connection..."] in
      match reply world h1 close with
      | Resolves _ =>
          (Returned (),
           {| trace := h1 ++ [EvCall close; EvLog ("Connection closed" +:+ nl);
                              EvLog rule;
                              EvLog "Test completed. Process exiting cleanly.";
                              EvLog rule];
              session := session s |})
      | Rejects err =>
          (Threw err, {| trace := h1 ++ [EvCall close]; session := session s |})
      | NeverSettles =>
          (Pending, {| trace := h1 ++ [EvCall close]; session := session s |})
      end in
    match session s with
    | Some _ =>
        let h0 := trace s ++ [EvLog "Ending session..."] in
        match reply world h0 endSession with
        | Resolves _ =>
            close_from (h0 ++ [EvCall endSession; EvLog ("Session ended" +:+ nl)])
        | Rejects err =>
            (Threw err, {| trace := h0 ++ [EvCall endSession]; session := session s |})
        | NeverSettles =>
            (Pending, {| trace := h0 ++ [EvCall endSession]; session := session s |})
        end
    | None => close_from (trace s)
    end.
Proof.
  destruct s as [tr se]. unfold finalizer.
  unfold get_session, call, mbind, M_bind, mret, M_ret, log, emit. norm_trace.
  destruct se as [[]|]; norm_trace.
  - destruct (reply world _ endSession); norm_trace; [| done | done].
    destruct (reply world _ close); norm_trace; done.
  - destruct (reply world _ close); norm_trace; done.
Qed.

Lemma aborts_app l1 l2 : aborts (l1 ++ l2) = (aborts l1 + aborts l2)%nat.
Proof. unfold aborts. by rewrite filter_app, length_app. Qed.

Lemma aborts_none l : Forall (fun e => is_abort e = false) l → aborts l = 0%nat.
Proof.
  unfold aborts. induction 1 as [|e l He _ IH]; [done |].
  rewrite filter_cons_False; [done | congruence].
Qed.

Lemma aborts_errors lines : aborts (EvError <$> lines) = 0%nat.
Proof. apply aborts_none, Forall_fmap, Forall_true. done. Qed.

Lemma body_aborts world sc : aborts (trace (body_of world sc initial).2) = 0%nat.
Proof. apply aborts_none, appends_from_initial, body_never_aborts. Qed.

(** ** The order of steps: the [follows] judgement *)

Lemma steps_app l1 l2 : steps (l1 ++ l2) = steps l1 ++ steps l2.
Proof. apply omap_app. Qed.

Lemma steps_silent l : Forall (fun e => step_of e = None) l → steps l = [].
Proof.
  induction 1 as [|e l He _ IH]; [done |].
  unfold steps in *. simpl. by rewrite He.
Qed.

Section FollowsRules.
Context (world : World).

Lemma follows_of_appends {A} (m : M A) p :
  appends (fun e => step_of e = None) m → follows m p p.
Proof.
  intros Hm s. destruct (Hm s) as (evs & E & F).
  exists evs. split; [done |]. rewrite (steps_silent _ F).
  destruct (m s).1; [done | apply prefix_nil | apply prefix_nil].
Qed.

Lemma follows_bind {A B} (m : M A) (f : A -> M B) p q r :
  follows m p q → (∀ a, follows (f a) q r) → follows (m ≫= f) p r.
Proof.
  intros Hm Hf s. unfold mbind, M_bind.
  destruct (Hm s) as (evs1 & E1 & S1).
  destruct (m s) as [[a|e|] s1]; simpl in *.
  - destruct (Hf a s1) as (evs2 & E2 & S2).
    exists (evs1 ++ evs2). rewrite E2, E1, app_assoc. split; [done |].
    rewrite steps_app, S1.
    destruct (f a s1).1.
    + by rewrite S2, app_assoc.
    + by apply prefix_app.
    + by apply prefix_app.
  - by exists evs1.
  - by exists evs1.
Qed.

Lemma follows_sleep ms p : follows (sleep ms) (StepWait ms :: p) p.
Proof. intros s. by exists [EvSleep ms]. Qed.

Lemma follows_call c st p :
  step_of (EvCall c) = Some st → follows (call world c) (st :: p) p.
Proof.
  intros Hst s. exists [EvCall c].
  assert (steps [EvCall c] = [st]) as ->.
  { unfold steps.
    change (omap step_of [EvCall c])
      with (match step_of (EvCall c) with Some y => [y] | None => [] end).
    by rewrite Hst. }
  unfold call.
  destruct (reply world (trace s) c); simpl;
    (split; [done |]); [done | apply prefix_cons, prefix_nil ..].
Qed.
End FollowsRules.

Ltac follows_step :=
  lazy zeta;
  first
    [ eapply follows_bind; [| intros ?]
    | apply follows_sleep
    | eapply follows_call; reflexivity
    | apply follows_of_appends; appends_auto; done
    | match goal with
      | |- follows (if ?b then _ else _) _ _ => destruct b
      end ].

Lemma follows_HangPause_body world :
  follows (TxHangPause.body world) (hang_pause_before_commit ++ [StepCommit]) [].
Proof.
  unfold TxHangPause.body, TxHangPause.countdown, three_inserts.
  cbn [for_loop hang_pause_before_commit three_inserts_plan replicate app].
  repeat follows_step.
Qed.

Lemma follows_HangOnCommit_body world :
  follows (TxHangOnCommit.body world) (hang_on_commit_before_commit ++ [StepCommit]) [].
Proof.
  unfold TxHangOnCommit.body, TxHangOnCommit.countdown, three_inserts.
  cbn [for_loop hang_on_commit_before_commit three_inserts_plan replicate app].
  repeat follows_step.
Qed.

Lemma follows_Tx_body world env :
  follows (Tx.body world env) (bounded_before_commit ++ [StepCommit]) [].
Proof.
  unfold Tx.body. cbn [bounded_before_commit app]. repeat follows_step.
Qed.

Lemma follows_TxNoTimeout_body world :
  follows (TxNoTimeout.body world) (no_timeout_before_commit ++ [StepCommit]) [].
Proof.
  unfold TxNoTimeout.body. cbn [no_timeout_before_commit app]. repeat follows_step.
Qed.

Lemma catch_block_silent world diagnosis e :
  appends (fun e => step_of e = None) (catch_block world diagnosis e).
Proof. unfold_scripts; appends_auto; done. Qed.

Lemma finalizer_silent world :
  appends (fun e => step_of e = None) (finalizer world).
Proof. unfold_scripts; appends_auto; done. Qed.

Lemma prefix_snoc_inv {A} (l p : list A) x :
  l `prefix_of` p ++ [x] → l = p ++ [x] ∨ l `prefix_of` p.
Proof.
  intros [k Hk]. destruct (decide (k = [])) as [-> | Hne].
  - left. by rewrite app_nil_r in Hk.
  - right. destruct (exists_last Hne) as (k' & y & ->).
    rewrite app_assoc in Hk. apply app_inj_tail in Hk as [-> _]. by exists k'.
Qed.

Lemma step_commit_elem tr : EvCall commitTransaction ∈ tr → StepCommit ∈ steps tr.
Proof.
  intros H. unfold steps. apply list_elem_of_omap.
  by exists (EvCall commitTransaction).
Qed.

(** Whatever the [catch] and [finally] blocks add to a trace is no step. *)
Lemma try_catch_finally_steps world body diagnosis s :
  steps (trace (try_catch_finally world body (catch_block world diagnosis) s).2)
  = steps (trace (body s).2).
Proof.
  unfold try_catch_finally, try_finally, try_catch.
  destruct (body s) as [[[]|e|] s1]; simpl; [| | done].
  - destruct (finalizer_silent world s1) as (evs & E & F).
    destruct (finalizer world s1) as [[[]|?|] s2]; simpl in *;
      by rewrite E, steps_app, (steps_silent evs F), app_nil_r.
  - destruct (catch_block_silent world diagnosis e s1) as (evs2 & E2 & F2).
    destruct (catch_block world diagnosis e s1) as [[[]|e'|] s2]; simpl in *.
    3: by rewrite E2, steps_app, (steps_silent evs2 F2), app_nil_r.
    all: destruct (finalizer_silent world s2) as (evs3 & E3 & F3);
      destruct (finalizer world s2) as [[[]|?|] s3]; simpl in *;
      by rewrite E3, E2, !steps_app, (steps_silent evs2 F2), (steps_silent evs3 F3),
           !app_nil_r.
Qed.

(** A script whose body works through [before ++ [StepCommit]] either does
    all of it, or stops within [before] without having asked for a commit. *)
Lemma plan_of_run world body diagnosis before :
  StepCommit ∉ before →
  follows body (before ++ [StepCommit]) [] →
  let tr := (main_of (try_catch_finally world body (catch_block world diagnosis))).2 in
  steps tr = before ++ [StepCommit]
  ∨ (steps tr `prefix_of` before ∧ EvCall commitTransaction ∉ tr).
Proof.
  intros Hfresh Hbody tr.
  assert (steps tr `prefix_of` before ++ [StepCommit]) as Hprefix.
  { subst tr.
    destruct (main_of_trace (try_catch_finally world body (catch_block world diagnosis)))
      as (tail & -> & Htail).
    rewrite steps_app, (steps_silent tail), app_nil_r, try_catch_finally_steps.
    2: { eapply Forall_impl; [exact Htail |]. by intros []. }
    destruct (Hbody initial) as (evs & E & S). simpl in E. rewrite E.
    destruct (body initial).1; [| done | done].
    by rewrite S, app_nil_r. }
  destruct (prefix_snoc_inv _ _ _ Hprefix) as [-> | Hshort]; [by left |].
  right. split; [done |]. intros Hin. apply step_commit_elem in Hin.
  apply Hfresh. destruct Hshort as [k ->]. apply elem_of_app. by left.
Qed.

(** ** A call that never settles: the [stops_at] judgement *)

Section StopsRules.
Context (world : World) (c : Call).
Context (never : ∀ h, reply world h c = NeverSettles).

Lemma stops_of_appends {A} (m : M A) :
  appends (fun e => e ≠ EvCall c) m → stops_at c m.
Proof.
  intros Hm s. destruct (Hm s) as (evs & E & F).
  exists evs. split; [done |]. intros Hin.
  by destruct (proj1 (Forall_forall _ _) F _ Hin).
Qed.

Lemma stops_call : stops_at c (call world c).
Proof.
  intros s. exists [EvCall c]. unfold call. rewrite never. by split.
Qed.

Lemma stops_bind {A B} (m : M A) (f : A -> M B) :
  stops_at c m → (∀ a, stops_at c (f a)) → stops_at c (m ≫= f).
Proof.
  intros Hm Hf s. unfold mbind, M_bind.
  destruct (Hm s) as (evs1 & E1 & S1).
  destruct (m s) as [[a|e|] s1]; simpl in *.
  - destruct (Hf a s1) as (evs2 & E2 & S2).
    exists (evs1 ++ evs2). rewrite E2, E1, app_assoc. split; [done |].
    intros [Hin | Hin]%elem_of_app; [by destruct (S1 Hin) |].
    destruct (S2 Hin) as [HP HL]. split; [done |].
    by rewrite last_app, HL.
  - exists evs1; split; [exact E1 | intros Hin; by destruct (S1 Hin)].
  - exists evs1; split; [exact E1 | intros Hin; by destruct (S1 Hin)].
Qed.

Lemma stops_try_catch {A} (body : M A) (handler : RawFailure -> M A) :
  stops_at c body → (∀ e, stops_at c (handler e)) → stops_at c (try_catch body handler).
Proof.
  intros Hb Hh s. unfold try_catch.
  destruct (Hb s) as (evs1 & E1 & S1).
  destruct (body s) as [[a|e|] s1]; simpl in *.
  - exists evs1; split; [exact E1 | intros Hin; by destruct (S1 Hin)].
  - destruct (Hh e s1) as (evs2 & E2 & S2).
    exists (evs1 ++ evs2). rewrite E2, E1, app_assoc. split; [done |].
    intros [Hin | Hin]%elem_of_app; [by destruct (S1 Hin) |].
    destruct (S2 Hin) as [HP HL]. split; [done |].
    by rewrite last_app, HL.
  - exists evs1; split; [exact E1 | intros Hin; by destruct (S1 Hin)].
Qed.

Lemma stops_try_finally {A} (body : M A) (finalizer : M unit) :
  stops_at c body → stops_at c finalizer → stops_at c (try_finally body finalizer).
Proof.
  intros Hb Hf s. unfold try_finally.
  destruct (Hb s) as (evs1 & E1 & S1).
  destruct (body s) as [[a|e|] s1]; simpl in *; [| | exists evs1; split; [exact E1 | intros Hin; by destruct (S1 Hin)]].
  all: destruct (Hf s1) as (evs2 & E2 & S2);
    exists (evs1 ++ evs2);
    destruct (finalizer s1) as [[[]|e'|] s2]; simpl in *;
    rewrite E2, E1, app_assoc; (split; [done |]);
    (intros [Hin | Hin]%elem_of_app; [by destruct (S1 Hin) |]);
    destruct (S2 Hin) as [HP HL]; try done;
    split; [done | by rewrite last_app, HL].
Qed.
End StopsRules.

Ltac stops_step :=
  lazy zeta;
  first
    [ apply stops_bind; [| intros ?]
    | apply stops_try_catch; [| intros ?]
    | apply stops_try_finally
    | apply stops_call; assumption
    | apply stops_of_appends; appends_auto; done ].

Lemma run_stops_at_commit world sc :
  (∀ h, reply world h commitTransaction = NeverSettles) →
  stops_at commitTransaction (run_of world sc).
Proof.
  intros never. rewrite run_of_unfold. unfold try_catch_finally.
  apply stops_try_finally; [apply stops_try_catch; [| intros ?] |].
  2, 3: apply stops_of_appends; unfold_scripts; appends_auto; done.
  destruct sc; simpl; unfold_scripts.
  all: repeat stops_step.
Qed.

Lemma appends_finalizer_any world : appends (fun _ => True) (finalizer world).
Proof. unfold_scripts; appends_auto; done. Qed.

(** ** An event that every run issues: the [issues] judgement *)

Section IssuesRules.
Context (world : World) (e : Event).

Lemma returns_emit e' : returns (emit e').
Proof. intros s. by eexists _, _. Qed.

Lemma issues_call c : e = EvCall c → issues e (call world c).
Proof.
  intros -> s. unfold call.
  destruct (reply world (trace s) c); simpl; apply elem_of_app; right; by left.
Qed.

Lemma issues_bind_now {A B} (m : M A) (f : A -> M B) :
  issues e m → (∀ a, appends (fun _ => True) (f a)) → issues e (m ≫= f).
Proof.
  intros Hm Hf s. unfold mbind, M_bind. specialize (Hm s).
  destruct (m s) as [[a|err|] s1]; simpl in *; [| done | done].
  destruct (Hf a s1) as (evs & -> & _). apply elem_of_app. by left.
Qed.

Lemma issues_bind_later {A B} (m : M A) (f : A -> M B) :
  returns m → (∀ a, issues e (f a)) → issues e (m ≫= f).
Proof.
  intros Hm Hf s. unfold mbind, M_bind.
  destruct (Hm s) as (a & s1 & ->). apply Hf.
Qed.

Lemma issues_try_catch_finally body handler :
  issues e body → (∀ err, appends (fun _ => True) (handler err)) →
  issues e (try_catch_finally world body handler).
Proof.
  intros Hb Hh s. unfold try_catch_finally, try_finally, try_catch.
  specialize (Hb s).
  assert (e ∈ trace (match body s with
                     | (Threw err, s') => handler err s'
                     | other => other
                     end).2) as Hcaught.
  { destruct (body s) as [[a|err|] s1]; simpl in *; [done | | done].
    destruct (Hh err s1) as (evs & -> & _). apply elem_of_app. by left. }
  destruct (match body s with
            | (Threw err, s') => handler err s'
            | other => other
            end) as [[a|err|] s2]; simpl in *; [| | done].
  all: destruct (appends_finalizer_any world s2) as (evs & E & _);
    destruct (finalizer world s2) as [[[]|?|] s3]; simpl in *;
    rewrite E; apply elem_of_app; by left.
Qed.
End IssuesRules.



(** * The error dispatch *)

Lemma classify_of_timeout_chain sc error :
  dispatches_on_timeouts sc = true →
  classify_of sc error =
    if matches_operation_timeout error then OperationTimeout
    else if matches_write_concern error then WriteConcernTimeout
    else if matches_commit_timeout error then CommitTimeout
    else if retryableLabelPresent error then Retryable
    else match sc with
         | RunTransactionHangOnCommit =>
             if name_is error "NotPrimaryOrSecondary"
                || name_is error "InterruptedDueToReplStateChange"
             then TopologyChange else Unclassified
         | _ => Unclassified
         end.
Proof. by destruct sc. Qed.

(** C1, as stated, fails: a failure that carries the retryable label and the
    commit-timeout name [ExceededTimeLimit], but whose code is 50, is taken
    by the first branch of the chain and comes out as an operation timeout
    with action RetryOperation, not as a commit timeout with action Abort. *)
Lemma labelled_commit_timeout_name_with_code_50 :
  retryableLabelPresent labelled_mixed_failure = true
  ∧ matches_commit_timeout labelled_mixed_failure = true
  ∧ classified (Tx.classify labelled_mixed_failure)
    = {| category := OperationTimeout; action := RetryOperation |}
  ∧ classified (TxHangOnCommit.classify labelled_mixed_failure)
    = {| category := OperationTimeout; action := RetryOperation |}
  ∧ classified (Tx.classify labelled_mixed_failure)
    ≠ {| category := CommitTimeout; action := Abort |}.
Proof. by vm_compute. Qed.

(** C1, amended: a failure that carries the retryable label and has the
    commit-timeout name or code is never classified Retryable; it is
    classified CommitTimeout with action Abort unless one of the two branches
    that come first also matches, and then that branch wins: operation
    timeout (MaxTimeMSExpired / 50) before write concern (WriteConcernFailed
    / 64) before commit timeout. *)
Theorem commit_timeout_outranks_retryable_label (sc : Script) (error : RawFailure) :
  dispatches_on_timeouts sc = true →
  retryableLabelPresent error = true →
  matches_commit_timeout error = true →
  category (classified (classify_of sc error)) ≠ Retryable
  ∧ classified (classify_of sc error)
    = if matches_operation_timeout error
      then {| category := OperationTimeout; action := RetryOperation |}
      else if matches_write_concern error
      then {| category := WriteConcernTimeout; action := Abort |}
      else {| category := CommitTimeout; action := Abort |}.
Proof.
  intros Hsc Hlabel Hcommit.
  rewrite (classify_of_timeout_chain sc error Hsc), Hcommit.
  by destruct (matches_operation_timeout error), (matches_write_concern error).
Qed.

Lemma commit_timeout_outranks_retryable_label_witness :
  classified (classify_of RunTransactionHangOnCommit labelled_commit_timeout)
  = {| category := CommitTimeout; action := Abort |}.
Proof.
  exact (proj2 (commit_timeout_outranks_retryable_label
                  RunTransactionHangOnCommit labelled_commit_timeout
                  eq_refl eq_refl eq_refl)).
Defined.

(** C2: the dispatch of every script is a function of the three fields code,
    codeName and retryable label alone (two failures that agree on them get
    the same classification, whatever their messages); printing the
    diagnosis returns and never throws; and a failure that matches none of
    operation timeout, write concern, commit timeout, retryable label and
    topology name is Unclassified. *)
Theorem classify_total_deterministic (sc : Script) (e e' : RawFailure) (s : State) :
  code e = code e' →
  codeName e = codeName e' →
  retryableLabelPresent e = retryableLabelPresent e' →
  classified (classify_of sc e) = classified (classify_of sc e')
  ∧ (∃ s', error_lines (diagnosis_of sc e) s = (Returned (), s'))
  ∧ (matches_operation_timeout e || matches_write_concern e
     || matches_commit_timeout e || retryableLabelPresent e
     || names_topology_change e = true
     ∨ classified (classify_of sc e) = {| category := Unclassified; action := Abort |}).
Proof.
  intros Hcode Hname Hlabel. split_and!.
  - f_equal.
    destruct sc; simpl;
      unfold Tx.classify, TxNoTimeout.classify, TxHangPause.classify,
        TxHangOnCommit.classify, matches_operation_timeout, matches_write_concern,
        matches_commit_timeout, name_is, code_is;
      by rewrite ?Hcode, ?Hname, ?Hlabel.
  - rewrite error_lines_run. by eexists.
  - unfold names_topology_change.
    destruct sc; simpl;
      unfold Tx.classify, TxNoTimeout.classify, TxHangPause.classify,
        TxHangOnCommit.classify;
      destruct (matches_operation_timeout e), (matches_write_concern e),
        (matches_commit_timeout e), (retryableLabelPresent e),
        (name_is e "NotWritablePrimary"), (name_is e "NotPrimaryOrSecondary"),
        (name_is e "InterruptedDueToReplStateChange"); simpl; auto.
Qed.

Lemma classify_total_deterministic_witness :
  classified (classify_of (RunTransaction ∅) connection_closed)
  = classified (classify_of (RunTransaction ∅)
                  {| code := None; codeName := None;
                     message := "socket hang up"; hasErrorLabel := None |}).
Proof.
  exact (proj1 (classify_total_deterministic (RunTransaction ∅) connection_closed
                  {| code := None; codeName := None;
                     message := "socket hang up"; hasErrorLabel := None |}
                  initial eq_refl eq_refl eq_refl)).
Defined.

(** C7, at the failing input: a failure named [NotWritablePrimary], with no
    label and no timeout code, matches no branch that comes before the
    topology branch, yet [runTransactionHangOnCommit] prints "Other Error"
    for it, where [runTransactionHangPause] reports a topology change;
    [runTransaction] has no topology branch.  The topology branch that
    [runTransactionHangOnCommit] does have comes after the label branch and
    catches [InterruptedDueToReplStateChange]. *)
Lemma not_writable_primary_in_hang_on_commit :
  names_topology_change not_writable_primary = true
  ∧ matches_operation_timeout not_writable_primary
    || matches_write_concern not_writable_primary
    || matches_commit_timeout not_writable_primary
    || retryableLabelPresent not_writable_primary = false
  ∧ classified (TxHangOnCommit.classify not_writable_primary)
    = {| category := Unclassified; action := Abort |}
  ∧ TxHangOnCommit.diagnosis not_writable_primary = ["Other Error: NotWritablePrimary"]
  ∧ classified (TxHangPause.classify not_writable_primary)
    = {| category := TopologyChange; action := RetryTransaction |}
  ∧ classified (Tx.classify not_writable_primary)
    = {| category := Unclassified; action := Abort |}
  ∧ classified (TxHangOnCommit.classify interrupted_by_state_change)
    = {| category := TopologyChange; action := RetryTransaction |}
  ∧ classified (TxHangPause.classify interrupted_by_state_change)
    = {| category := Unclassified; action := Abort |}.
Proof. by vm_compute. Qed.

(** * The timeout knobs of the bounded script *)


Lemma or_else_set s d : s ≠ EmptyString → or_else (Some s) d = s.
Proof. intros Hs. unfold or_else. by destruct (decide (s = EmptyString)). Qed.

Lemma knob_in_options_read k env :
  knob_in_options k env
  = Some (parseInt (or_else (env !! knob_variable k)
                            (pretty (bounded_default k)))).
Proof. by destruct k. Qed.

Lemma Tx_main_carries world env :
  Forall (carries Tx.MONGO_URI (Tx.transactionOptions env) (Tx.operationOptions env))
         (Tx.main world env).2.
Proof. exact (main_carries world (RunTransaction env)). Qed.





(** C6: a knob whose environment variable is unset takes its bounded
    default (write concern 2000, commit 1500, operation 1000); the option is
    present, not left out, and every driver call of the run carries it. *)
Theorem unset_knob_takes_bounded_default (k : Knob) (world : World) (env : Env) :
  env !! knob_variable k = None →
  knob_in_options k env = Some (Num (bounded_default k))
  ∧ knob_in_options k env ≠ None
  ∧ Forall (carries Tx.MONGO_URI (Tx.transactionOptions env) (Tx.operationOptions env))
           (Tx.main world env).2.
Proof.
  intros Hunset.
  assert (knob_in_options k env = Some (Num (bounded_default k))) as Hdefault.
  { rewrite knob_in_options_read, Hunset. by destruct k. }
  split_and!; [done | by rewrite Hdefault | apply Tx_main_carries].
Qed.

Lemma unset_knob_takes_bounded_default_witness :
  knob_in_options OperationKnob ∅ = Some (Num 1000).
Proof.
  refine (proj1 (unset_knob_takes_bounded_default OperationKnob healthy ∅ _)).
  by vm_compute.
Defined.




(** * Failure handling of a run *)

(** C4: when the body of a script fails while the session exists and reports
    that it is in a transaction, the whole run asks for an abort exactly
    once.  The diagnosis of the original failure is on the trace before that
    abort, whatever the abort does.  An abort that fails is logged
    ("Failed to abort transaction: ...") and swallowed: the [catch] block
    still returns normally, and no further abort follows. *)
Theorem exactly_one_abort world sc e s1 :
  body_of world sc initial = (Threw e, s1) →
  session s1 = Some TheSession →
  inTransaction world (trace s1 ++ catch_preamble (diagnosis_of sc) e) = true →
  let h := trace s1 ++ catch_preamble (diagnosis_of sc) e ++ [abort_line] in
  let tr := (main world sc).2 in
  aborts tr = 1%nat ∧
  (h ++ [EvCall abortTransaction]) `prefix_of` tr ∧
  match reply world h abortTransaction with
  | Resolves _ =>
      (h ++ [EvCall abortTransaction;
             EvLog ("Transaction aborted successfully" +:+ nl)]) `prefix_of` tr
      ∧ (try_catch (body_of world sc) (catch_block world (diagnosis_of sc)) initial).1
        = Returned ()
  | Rejects abortError =>
      (h ++ [EvCall abortTransaction;
             EvError ("Failed to abort transaction: " +:+ message abortError
                      +:+ " " +:+ nl)]) `prefix_of` tr
      ∧ (try_catch (body_of world sc) (catch_block world (diagnosis_of sc)) initial).1
        = Returned ()
  | NeverSettles => tr = h ++ [EvCall abortTransaction]
  end.
Proof.
  intros Hbody Hsession Hactive h tr. subst h tr.
  pose proof (body_aborts world sc) as Hnone. rewrite Hbody in Hnone. simpl in Hnone.
  rewrite main_unfold, run_of_unfold.
  unfold main_of, try_catch_finally, try_finally, try_catch.
  rewrite Hbody, catch_block_run, Hsession, Hactive.
  rewrite bool_decide_eq_true_2 by eauto. cbn [andb].
  rewrite <- (app_assoc (trace s1)).
  destruct (reply world _ abortTransaction) as [r|abortError|]; cbn [fst snd].
  1, 2: rewrite finalizer_run; cbn [session trace]; try rewrite Hsession.
  1, 2: destruct (reply world _ endSession); cbn [fst snd]; norm_trace;
    try destruct (reply world _ close); cbn [fst snd]; norm_trace.
  all: norm_trace; split_and!; try done; try solve_prefix.
  all: rewrite !aborts_app, Hnone; unfold catch_preamble;
    rewrite !aborts_app, aborts_errors; done.
Qed.

Lemma exactly_one_abort_witness :
  aborts (main update_times_out (RunTransaction ∅)).2 = 1%nat.
Proof.
  refine (proj1 (exactly_one_abort update_times_out (RunTransaction ∅)
                   operation_timed_out
                   (body_of update_times_out (RunTransaction ∅) initial).2 _ _ _)).
  - by vm_compute.
  - by vm_compute.
  - by vm_compute.
Defined.





Example update_times_out_exits_0 :
  (main update_times_out (RunTransaction ∅)).1 = Some 0.
Proof. by vm_compute. Qed.

(** * Timeouts left out, and the order of steps *)

Lemma main_of_pending run :
  stops_at commitTransaction run →
  EvCall commitTransaction ∈ (main_of run).2 →
  (main_of run).1 = None ∧ last (main_of run).2 = Some (EvCall commitTransaction).
Proof.
  intros Hstops. unfold main_of.
  destruct (Hstops initial) as (evs & E & S). simpl in E.
  destruct (run initial) as [[[]|e|] s]; simpl in *; subst.
  - intros [Hin | Hin]%elem_of_app; [by destruct (S Hin) |].
    apply list_elem_of_In in Hin. simpl in Hin. intuition discriminate.
  - intros [Hin | Hin]%elem_of_app; [by destruct (S Hin) |].
    apply list_elem_of_In in Hin. simpl in Hin. intuition discriminate.
  - intros Hin. by destruct (S Hin).
Qed.

(** C5: a script without timeouts sets no bound on the commit.  Its
    transaction options have neither wtimeout nor maxCommitTimeMS, its
    operations no maxTimeMS, its connection string sets socketTimeoutMS to 0
    and serverSelectionTimeoutMS to 300000, and every driver call of every
    run carries just these.  The script adds no bound of its own: when the
    commit that it asks for never settles, the run ends there, with the
    commit call as its last event and no exit. *)
Theorem unbounded_commit_has_no_ceiling (sc : Script) (world : World) :
  unbounded sc = true →
  (∀ h, reply world h commitTransaction = NeverSettles) →
  EvCall commitTransaction ∈ (main world sc).2 →
  wtimeout (writeConcern (transactionOptions_of sc)) = None
  ∧ maxCommitTimeMS (transactionOptions_of sc) = None
  ∧ maxTimeMS (operationOptions_of sc) = None
  ∧ parseInt <$> uri_option (uri_of sc) "socketTimeoutMS" = Some (Num 0)
  ∧ parseInt <$> uri_option (uri_of sc) "serverSelectionTimeoutMS" = Some (Num 300000)
  ∧ Forall (carries (uri_of sc) (transactionOptions_of sc) (operationOptions_of sc))
           (main world sc).2
  ∧ (main world sc).1 = None
  ∧ last (main world sc).2 = Some (EvCall commitTransaction).
Proof.
  intros Hsc Hnever Hcommit.
  assert ((main world sc).1 = None
          ∧ last (main world sc).2 = Some (EvCall commitTransaction)) as [Hstatus Hlast].
  { rewrite main_unfold in *.
    apply main_of_pending; [by apply run_stops_at_commit | done]. }
  split_and!; try done; [destruct sc; done .. | | | apply main_carries].
  - by destruct sc; [done | vm_compute ..].
  - by destruct sc; [done | vm_compute ..].
Qed.

Lemma unbounded_commit_has_no_ceiling_witness :
  (main commit_hangs RunTransactionNoTimeout).1 = None
  ∧ last (main commit_hangs RunTransactionNoTimeout).2 = Some (EvCall commitTransaction).
Proof.
  refine (let H := unbounded_commit_has_no_ceiling RunTransactionNoTimeout commit_hangs
                     eq_refl (fun _ => eq_refl) _ in
          conj (proj1 (proj2 (proj2 (proj2 (proj2 (proj2 (proj2 H)))))))
               (proj2 (proj2 (proj2 (proj2 (proj2 (proj2 (proj2 H)))))))).
  apply list_elem_of_In. vm_compute. tauto.
Defined.

(** In [runTransactionHangPause] and [runTransactionHangOnCommit] the steps
    of every run are, in this order, insert 1, insert 2, insert 3, the
    countdown (15 waits of a second; 30 waits of a second and one of five
    seconds), the commit.  A run either does all of them, or stops somewhere
    before the commit and then never asks for it; no write and no wait comes
    after the commit. *)
Lemma hang_scripts_in_order (world : World) :
  (steps (TxHangPause.main world).2 = hang_pause_before_commit ++ [StepCommit]
   ∨ (steps (TxHangPause.main world).2 `prefix_of` hang_pause_before_commit
      ∧ EvCall commitTransaction ∉ (TxHangPause.main world).2))
  ∧ (steps (TxHangOnCommit.main world).2 = hang_on_commit_before_commit ++ [StepCommit]
     ∨ (steps (TxHangOnCommit.main world).2 `prefix_of` hang_on_commit_before_commit
        ∧ EvCall commitTransaction ∉ (TxHangOnCommit.main world).2)).
Proof.
  split.
  - apply (plan_of_run world (TxHangPause.body world) TxHangPause.diagnosis).
    + intros H. apply list_elem_of_In in H. vm_compute in H. intuition discriminate.
    + apply follows_HangPause_body.
  - apply (plan_of_run world (TxHangOnCommit.body world) TxHangOnCommit.diagnosis).
    + intros H. apply list_elem_of_In in H. vm_compute in H. intuition discriminate.
    + apply follows_HangOnCommit_body.
Qed.

(** The two scripts with two writes keep their order too; their one wait sits
    between the insert and the update, not before the commit. *)
Lemma two_writes_in_order (world : World) (env : Env) :
  (steps (Tx.main world env).2 = bounded_before_commit ++ [StepCommit]
   ∨ (steps (Tx.main world env).2 `prefix_of` bounded_before_commit
      ∧ EvCall commitTransaction ∉ (Tx.main world env).2))
  ∧ (steps (TxNoTimeout.main world).2 = no_timeout_before_commit ++ [StepCommit]
     ∨ (steps (TxNoTimeout.main world).2 `prefix_of` no_timeout_before_commit
        ∧ EvCall commitTransaction ∉ (TxNoTimeout.main world).2)).
Proof.
  split.
  - apply (plan_of_run world (Tx.body world env) Tx.diagnosis).
    + intros H. apply list_elem_of_In in H. vm_compute in H. intuition discriminate.
    + apply follows_Tx_body.
  - apply (plan_of_run world (TxNoTimeout.body world) TxNoTimeout.diagnosis).
    + intros H. apply list_elem_of_In in H. vm_compute in H. intuition discriminate.
    + apply follows_TxNoTimeout_body.
Qed.

Example hang_on_commit_healthy_steps :
  steps (TxHangOnCommit.main healthy).2 = hang_on_commit_before_commit ++ [StepCommit]
  ∧ steps (TxHangOnCommit.main commit_hangs).2
    = hang_on_commit_before_commit ++ [StepCommit]
  ∧ steps (TxHangPause.main healthy).2 = hang_pause_before_commit ++ [StepCommit].
Proof. by vm_compute. Qed.

(** * The protocol of a run

    Which driver calls a run makes, in which order, and how they end. *)

Lemma kinds_app l1 l2 : kinds (l1 ++ l2) = kinds l1 ++ kinds l2.
Proof. apply omap_app. Qed.

Lemma moves_app l1 l2 v : moves (l1 ++ l2) v = moves l2 (moves l1 v).
Proof. apply foldl_app. Qed.

Section RefinesRules.
Context (world : World).

Lemma refines_ret {A} (a : A) p : refines (mret a) p p.
Proof. intros s. by exists []. Qed.

Lemma refines_emit e p : kind_of e = None → refines (emit e) p p.
Proof.
  intros He s. exists []. split; [done |].
  unfold view. simpl. by rewrite kinds_app; unfold kinds at 2; simpl; rewrite He, app_nil_r.
Qed.

Lemma refines_date_now p : refines (date_now world) p p.
Proof. intros s. by exists []. Qed.

Lemma refines_set_session v p : refines (set_session v) (MSet v :: p) p.
Proof. intros s. by exists [MSet v]. Qed.

Lemma refines_call c p : refines (call world c) (MCall (kind_of_call c) :: p) p.
Proof.
  intros s. unfold call.
  assert (view {| trace := trace s ++ [EvCall c]; session := session s |}
          = moves [MCall (kind_of_call c)] (view s)) as Hv.
  { unfold view. simpl. by rewrite kinds_app. }
  destruct (reply world (trace s) c); simpl.
  - by exists [MCall (kind_of_call c)].
  - by exists [], (kind_of_call c), p.
  - by exists [], (kind_of_call c), p.
Qed.

Lemma refines_bind {A B} (m : M A) (f : A -> M B) p q r :
  refines m p q → (∀ a, refines (f a) q r) → refines (m ≫= f) p r.
Proof.
  intros Hm Hf s. unfold mbind, M_bind. specialize (Hm s).
  destruct (m s) as [[a|e|] s1]; simpl in *; [| done | done].
  destruct Hm as (d1 & -> & V1). specialize (Hf a s1).
  destruct (f a s1) as [[b|e|] s2]; simpl in *.
  - destruct Hf as (d2 & -> & V2). exists (d1 ++ d2).
    by rewrite V2, V1, moves_app, app_assoc.
  - destruct Hf as (d2 & k & r' & -> & V2). exists (d1 ++ d2), k, r'.
    by rewrite V2, V1, <- !moves_app, !app_assoc.
  - destruct Hf as (d2 & k & r' & -> & V2). exists (d1 ++ d2), k, r'.
    by rewrite V2, V1, <- !moves_app, !app_assoc.
Qed.

(** [try { await call; log } catch { }]: a rejected call is swallowed. *)
Lemma refines_try_call c e p :
  kind_of e = None →
  refines (try_catch (call world c ≫= λ _, emit e) (λ _, mret ()))
          (MCall (kind_of_call c) :: p) p.
Proof.
  intros He s. unfold try_catch, mbind, M_bind, call, emit, mret, M_ret.
  assert (∀ l, view {| trace := (trace s ++ [EvCall c]) ++ l; session := session s |}
               = (kinds (trace s) ++ [kind_of_call c] ++ kinds l, session s)) as Hv.
  { intros l. unfold view. simpl. by rewrite !kinds_app, <- app_assoc. }
  destruct (reply world (trace s) c); simpl.
  - exists [MCall (kind_of_call c)]. split; [done |].
    rewrite Hv. unfold kinds at 2. simpl. by rewrite He.
  - exists [MCall (kind_of_call c)]. split; [done |].
    specialize (Hv []). rewrite app_nil_r in Hv. rewrite Hv. by rewrite app_nil_r.
  - exists [], (kind_of_call c), p. split; [done |].
    specialize (Hv []). rewrite app_nil_r in Hv. rewrite Hv. by rewrite app_nil_r.
Qed.
End RefinesRules.

Ltac refines_step :=
  lazy zeta;
  first
    [ eapply refines_bind; [| intros ?]
    | apply refines_call
    | apply refines_set_session
    | apply refines_date_now
    | apply refines_ret
    | apply refines_try_call; reflexivity
    | apply refines_emit; reflexivity
    | match goal with
      | |- refines (if ?b then _ else _) _ _ => destruct b
      end ].

Lemma body_refines world sc : refines (body_of world sc) (body_plan sc) [].
Proof.
  destruct sc; simpl body_of; simpl body_plan;
    unfold Tx.body, TxNoTimeout.body, TxHangPause.body, TxHangOnCommit.body,
      TxHangPause.countdown, TxHangOnCommit.countdown, three_inserts,
      log, error_log, stdout_write, sleep;
    cbn [for_loop].
  all: repeat refines_step.
Qed.

Lemma stops_here done k r v :
  moves (done ++ [MCall k]) v ∈ stops (done ++ MCall k :: r) v.
Proof.
  revert v. induction done as [|a done IH]; intros v; simpl.
  - by left.
  - unfold moves in *. destruct a as [k0|x]; simpl; [right |]; apply IH.
Qed.

(** A run of a body either returns after all of its plan, or stops right
    after one of its calls. *)
Lemma body_view world sc :
  let r := body_of world sc initial in
  match r.1 with
  | Returned _ => view r.2 = moves (body_plan sc) ([], None)
  | _ => view r.2 ∈ stops (body_plan sc) ([], None)
  end.
Proof.
  intros r. pose proof (body_refines world sc initial) as H. fold r in H.
  destruct r.1.
  - destruct H as (done & Hp & ->). rewrite app_nil_r in Hp. by subst.
  - destruct H as (done & k & r' & -> & ->). apply stops_here.
  - destruct H as (done & k & r' & -> & ->). apply stops_here.
Qed.

(** A property of views that holds after the whole plan and at each stop
    holds after the body. *)
Lemma body_view_ind world sc (Q : View → Prop) :
  Q (moves (body_plan sc) ([], None)) →
  Forall Q (stops (body_plan sc) ([], None)) →
  Q (view (body_of world sc initial).2).
Proof.
  intros Hall Hstops. pose proof (body_view world sc) as H. simpl in H.
  destruct (body_of world sc initial).1.
  - by rewrite H.
  - by apply (proj1 (Forall_forall _ _) Hstops).
  - by apply (proj1 (Forall_forall _ _) Hstops).
Qed.

Lemma body_session world sc :
  let s1 := (body_of world sc initial).2 in
  kinds (trace s1) `prefix_of` body_kinds sc
  ∧ (session s1 = Some TheSession ↔ KStartTransaction ∈ kinds (trace s1))
  ∧ (session s1 = None ↔ KStartTransaction ∉ kinds (trace s1)).
Proof.
  intros s1.
  assert (session_tracks sc (view s1) = true) as H.
  { apply (body_view_ind world sc (fun v => session_tracks sc v = true)).
    - by destruct sc; vm_compute.
    - destruct sc; by repeat constructor. }
  unfold session_tracks in H.
  apply andb_prop in H as [[H1%bool_decide_eq_true H2%bool_decide_eq_true]%andb_prop
                             H3%bool_decide_eq_true].
  done.
Qed.

Lemma kinds_errors lines : kinds (EvError <$> lines) = [].
Proof. induction lines as [|l rest IH]; [done | exact IH]. Qed.

Lemma kinds_catch_preamble diagnosis e : kinds (catch_preamble diagnosis e) = [].
Proof. unfold catch_preamble. by rewrite !kinds_app, kinds_errors. Qed.

Ltac solve_kinds :=
  rewrite ?kinds_app, ?kinds_catch_preamble; cbn; rewrite ?app_nil_r; reflexivity.

Ltac pick_flags tac :=
  first
    [ exists false, false, false; tac | exists false, false, true; tac
    | exists false, true, false; tac | exists false, true, true; tac
    | exists true, false, false; tac | exists true, false, true; tac
    | exists true, true, false; tac | exists true, true, true; tac ].

Lemma run_kinds world sc :
  let r := body_of world sc initial in
  ∃ a e c : bool,
    kinds (main world sc).2
    = kinds (trace r.2) ++ optional a KAbort ++ optional e KEndSession
      ++ optional c KClose
    ∧ (a = true → session r.2 = Some TheSession ∧ ∃ err, r.1 = Threw err)
    ∧ (e = true → session r.2 = Some TheSession)
    ∧ ((main world sc).1 ≠ None → session r.2 = Some TheSession → e = true)
    ∧ ((main world sc).1 = Some 0 → c = true)
    ∧ ((main world sc).1 = Some 1 → c = false → e = true).
Proof.
  intros r. subst r.
  rewrite main_unfold, run_of_unfold.
  unfold main_of, try_catch_finally, try_finally, try_catch.
  pose proof (body_session world sc) as (_ & _ & Hnone). simpl in Hnone.
  destruct (body_of world sc initial) as [[[]|err|] s1]; cbn [fst snd].
  3: { pick_flags ltac:(split_and!; [solve_kinds | try done ..]). }
  2: rewrite catch_block_run;
     destruct (bool_decide _ && inTransaction world _) eqn:Hgo;
       [apply andb_prop in Hgo as [Hs%bool_decide_eq_true _];
        destruct (reply world _ abortTransaction) |]; cbn [fst snd].
  4: { destruct (session s1) as [[]|] eqn:Hse; [| by destruct Hs].
       norm_trace.
       pick_flags ltac:(split_and!; [solve_kinds | try done; eauto ..]). }
  all: rewrite finalizer_run; cbn [session trace].
  all: destruct (session s1) as [[]|] eqn:Hse; try (by destruct Hs).
  all: try (destruct (reply world _ endSession)); cbn [fst snd]; norm_trace.
  all: try (destruct (reply world _ close)); cbn [fst snd]; norm_trace.
  all: pick_flags ltac:(split_and!; [solve_kinds | try done; eauto ..]).
Qed.

Lemma optional_elem {A} (b : bool) (x y : A) : y ∈ optional b x ↔ b = true ∧ y = x.
Proof.
  destruct b; simpl.
  - rewrite list_elem_of_singleton. by split; [intros -> | intros [_ ->]].
  - split; [by intros ?%elem_of_nil | by intros []].
Qed.

Lemma body_kinds_only sc k :
  k ∈ body_kinds sc → k ≠ KAbort ∧ k ≠ KEndSession ∧ k ≠ KClose.
Proof.
  intros H. apply list_elem_of_In in H.
  destruct sc; vm_compute in H; intuition (subst; discriminate).
Qed.

(** X1. The driver calls of every run, whatever the replica set answers, are
    some prefix of the calls of the script's [try] block in program order,
    then at most one abort, at most one [endSession] and at most one
    [close], in this order; an abort or an [endSession] is there only if
    the run got as far as starting the transaction. *)
Theorem driver_calls_in_order (world : World) (sc : Script) :
  ∃ (done : list Kind) (a e c : bool),
    kinds (main world sc).2
    = done ++ optional a KAbort ++ optional e KEndSession ++ optional c KClose
    ∧ done `prefix_of` body_kinds sc
    ∧ (a = true → KStartTransaction ∈ done)
    ∧ (e = true → KStartTransaction ∈ done).
Proof.
  destruct (run_kinds world sc) as (a & e & c & Hk & Ha & He & _).
  destruct (body_session world sc) as (Hp & Hs & _). simpl in *.
  exists (kinds (trace (body_of world sc initial).2)), a, e, c.
  split_and!; [done | done | |].
  - intros Ht. apply Hs. by destruct (Ha Ht).
  - intros Ht. apply Hs. by apply He.
Qed.

(** X2. A run that exits has ended its session exactly if it had one, that
    is if it got as far as starting the transaction; and the last driver
    call of a run that exits with status 0 is [close]. *)
Theorem exiting_run_ends_its_session (world : World) (sc : Script) (status : Z) :
  (main world sc).1 = Some status →
  (KEndSession ∈ kinds (main world sc).2 ↔ KStartTransaction ∈ kinds (main world sc).2)
  ∧ (status = 0 → last (kinds (main world sc).2) = Some KClose).
Proof.
  intros Hst.
  destruct (run_kinds world sc) as (a & e & c & Hk & Ha & He & Hexit & Hzero & _).
  destruct (body_session world sc) as (Hp & Hs & _). simpl in *.
  rewrite Hk.
  assert (∀ k, k ∈ kinds (trace (body_of world sc initial).2) →
               k ≠ KAbort ∧ k ≠ KEndSession ∧ k ≠ KClose) as Honly.
  { intros k Hk'. apply (body_kinds_only sc). destruct Hp as [rest ->].
    apply elem_of_app. by left. }
  split.
  - rewrite !elem_of_app, !optional_elem. split.
    + intros [H | [[_ ?] | [[He' _] | [_ ?]]]]; try done.
      * by destruct (Honly _ H) as (_ & ? & _).
      * left. apply Hs. by apply He.
    + intros [H | [[_ ?] | [[_ ?] | [_ ?]]]]; try done.
      right; right; left. split; [| done]. apply Hexit; [by rewrite Hst |].
      by apply Hs.
  - intros ->. rewrite (Hzero Hst). simpl.
    by rewrite !app_assoc, last_snoc.
Qed.

Lemma exiting_run_ends_its_session_witness :
  last (kinds (main healthy (RunTransaction ∅)).2) = Some KClose.
Proof.
  refine (proj2 (exiting_run_ends_its_session healthy (RunTransaction ∅) 0 _) eq_refl).
  by vm_compute.
Defined.

Lemma main_of_exit run st :
  (main_of run).1 = Some st → last (main_of run).2 = Some (EvExit st).
Proof.
  unfold main_of. destruct (run initial) as [[[]|e|] s]; simpl; [| | done].
  all: intros [= <-]; by rewrite last_app.
Qed.

(** X3. When [endSession] is rejected in the [finally] block, the connection
    is never closed: the rejection leaves the block before [client.close()],
    and the process exits with status 1. *)
Theorem failed_end_session_skips_close (world : World) (sc : Script) (err : RawFailure) :
  (∀ h, reply world h endSession = Rejects err) →
  KEndSession ∈ kinds (main world sc).2 →
  (KClose ∉ kinds (main world sc).2)
  ∧ (main world sc).1 = Some 1
  ∧ last (main world sc).2 = Some (EvExit 1).
Proof.
  intros Hrej Hended.
  assert ((KClose ∉ kinds (main world sc).2) ∧ (main world sc).1 = Some 1) as [Hc Hst].
  2: { split_and!; [done | done |]. rewrite main_unfold in *. by apply main_of_exit. }
  revert Hended.
  assert (∀ k, k ∈ kinds (trace (body_of world sc initial).2) →
               k ≠ KAbort ∧ k ≠ KEndSession ∧ k ≠ KClose) as Honly.
  { intros k Hk'. apply (body_kinds_only sc).
    destruct (body_session world sc) as ([rest ->] & _). apply elem_of_app. by left. }
  rewrite main_unfold, run_of_unfold.
  unfold main_of, try_catch_finally, try_finally, try_catch.
  destruct (body_of world sc initial) as [[[]|e|] s1]; cbn [fst snd] in *.
  2: rewrite catch_block_run;
     destruct (bool_decide _ && inTransaction world _);
       [destruct (reply world _ abortTransaction) |]; cbn [fst snd].
  all: try rewrite finalizer_run; cbn [session trace].
  all: try (destruct (session s1) as [[]|]); rewrite ?Hrej; cbn [fst snd]; norm_trace.
  all: try (destruct (reply world _ close)); cbn [fst snd]; norm_trace.
  all: rewrite ?kinds_app, ?kinds_catch_preamble; cbn -[String.append]; rewrite ?app_nil_r.
  all: intros Hin.
  all: try (exfalso; apply elem_of_app in Hin as [Hin | Hin];
            [by destruct (Honly _ Hin) as (_ & ? & _)
            | apply list_elem_of_In in Hin; cbn in Hin; intuition discriminate]).
  all: try (by destruct (Honly _ Hin) as (_ & ? & _)).
  all: split; [| done].
  all: intros Hc; apply elem_of_app in Hc as [Hc | Hc];
            [by destruct (Honly _ Hc) as (_ & _ & ?)
            | apply list_elem_of_In in Hc; cbn in Hc; intuition discriminate].
Qed.

Lemma failed_end_session_skips_close_witness :
  (main (end_session_fails connection_closed) RunTransactionHangPause).1 = Some 1.
Proof.
  refine (proj1 (proj2 (failed_end_session_skips_close
                          (end_session_fails connection_closed)
                          RunTransactionHangPause connection_closed
                          (fun _ => eq_refl) _))).
  apply list_elem_of_In. vm_compute. tauto.
Defined.

(** * A run on a replica set that cooperates *)

Section ReturnsRules.
Context (world : World) (Hcoop : cooperative world).

Lemma returns_ret {A} (a : A) : returns (mret a).
Proof. intros s. by eexists _, _. Qed.

Lemma returns_date_now : returns (date_now world).
Proof. intros s. by eexists _, _. Qed.

Lemma returns_set_session v : returns (set_session v).
Proof. intros s. by eexists _, _. Qed.

Lemma returns_call c : c ≠ createIndex → returns (call world c).
Proof.
  intros Hc s. unfold call.
  destruct (proj1 Hcoop (trace s) c Hc) as [r ->]. by eexists _, _.
Qed.

Lemma returns_bind {A B} (m : M A) (f : A -> M B) :
  returns m → (∀ a, returns (f a)) → returns (m ≫= f).
Proof.
  intros Hm Hf s. unfold mbind, M_bind.
  destruct (Hm s) as (a & s1 & ->). apply Hf.
Qed.

Lemma returns_try_call e :
  returns (try_catch (call world createIndex ≫= λ _, emit e) (λ _, mret ())).
Proof.
  intros s. unfold try_catch, mbind, M_bind, call, emit, mret, M_ret.
  pose proof (proj2 Hcoop (trace s)) as Hidx.
  destruct (reply world (trace s) createIndex); [| | done]; by eexists _, _.
Qed.
End ReturnsRules.

Ltac returns_step :=
  lazy zeta;
  first
    [ apply returns_bind; [| intros ?]
    | apply returns_call; [assumption | discriminate]
    | apply returns_try_call; assumption
    | apply returns_emit
    | apply returns_ret
    | apply returns_date_now
    | apply returns_set_session
    | match goal with
      | |- returns (if ?b then _ else _) => destruct b
      end ].

Lemma body_returns world sc : cooperative world → returns (body_of world sc).
Proof.
  intros Hcoop.
  destruct sc; simpl body_of;
    unfold Tx.body, TxNoTimeout.body, TxHangPause.body, TxHangOnCommit.body,
      TxHangPause.countdown, TxHangOnCommit.countdown, three_inserts,
      log, error_log, stdout_write, sleep;
    cbn [for_loop].
  all: repeat returns_step.
Qed.

Lemma ends_with_bind {A B} e (m : M A) (f : A -> M B) :
  (∀ a, ends_with e (f a)) → ends_with e (m ≫= f).
Proof.
  intros Hf s. unfold mbind, M_bind.
  destruct (m s) as [[a|err|] s1]; simpl; [apply Hf | done | done].
Qed.

Lemma ends_with_emit e : ends_with e (emit e).
Proof. intros s. simpl. apply last_snoc. Qed.

Lemma body_ends_with_commit_line world sc :
  ends_with (EvLog ("Transaction committed successfully!" +:+ nl)) (body_of world sc).
Proof.
  destruct sc; simpl body_of;
    unfold Tx.body, TxNoTimeout.body, TxHangPause.body, TxHangOnCommit.body, log.
  all: repeat (lazy zeta; first [apply ends_with_bind; intros ? | apply ends_with_emit]).
Qed.

Lemma run_no_error_lines_when_body_returns world sc a s1 :
  body_of world sc initial = (Returned a, s1) →
  Forall (fun e => is_error_line e = false) (trace s1).
Proof.
  intros Hb.
  assert (appends (fun e => is_error_line e = false) (body_of world sc)) as H.
  { destruct sc; simpl; unfold_scripts; appends_auto; done. }
  apply appends_from_initial in H. by rewrite Hb in H.
Qed.

Lemma body_plan_end sc :
  moves (body_plan sc) ([], None) = (body_kinds sc, Some TheSession).
Proof. by destruct sc. Qed.

Lemma body_returned world sc a s1 :
  body_of world sc initial = (Returned a, s1) →
  kinds (trace s1) = body_kinds sc ∧ session s1 = Some TheSession.
Proof.
  intros Hb. pose proof (body_view world sc) as H. cbv zeta in H.
  rewrite Hb in H. cbn [fst snd] in H. rewrite body_plan_end in H.
  unfold view in H. by injection H as -> ->.
Qed.

(** X4. If the replica set resolves every call -- the creation of the index
    may be refused, that is swallowed -- the run makes all the calls of its
    [try] block, commits, ends the session, closes the connection, prints
    nothing on the error stream and exits with status 0. *)
Theorem cooperative_run_commits (world : World) (sc : Script) :
  cooperative world →
  (main world sc).1 = Some 0
  ∧ kinds (main world sc).2 = body_kinds sc ++ [KEndSession; KClose]
  ∧ EvLog ("Transaction committed successfully!" +:+ nl) ∈ (main world sc).2
  ∧ Forall (fun e => is_error_line e = false) (main world sc).2.
Proof.
  intros Hcoop.
  destruct (body_returns world sc Hcoop initial) as ([] & s1 & Hb).
  pose proof (body_ends_with_commit_line world sc initial) as Hlast.
  pose proof (run_no_error_lines_when_body_returns world sc () s1 Hb) as Hquiet.
  destruct (body_returned world sc () s1 Hb) as [Hk Hs].
  rewrite main_unfold, run_of_unfold.
  unfold main_of, try_catch_finally, try_finally, try_catch.
  destruct (body_of world sc initial) as [o s1'] eqn:Hb'.
  injection Hb as -> ->. cbn [fst snd] in Hlast |- *.
  rewrite finalizer_run, Hs. cbn [session trace].
  destruct (proj1 Hcoop (trace s1 ++ [EvLog "Ending session..."]) endSession) as [r1 ->];
    [done |].
  norm_trace.
  match goal with
  | |- context [reply world ?h close] =>
      destruct (proj1 Hcoop h close) as [r2 ->]; [done |]
  end.
  cbn [fst snd]. norm_trace.
  split_and!; [done | | |].
  - rewrite kinds_app, Hk. done.
  - apply elem_of_app. left. by apply last_Some_elem_of.
  - apply Forall_app. split; [done |]. by repeat constructor.
Qed.

Lemma healthy_cooperative : cooperative healthy.
Proof.
  split.
  - intros h c _. destruct c; by eexists.
  - done.
Qed.

Lemma cooperative_run_commits_witness :
  (main healthy RunTransactionHangOnCommit).1 = Some 0.
Proof. exact (proj1 (cooperative_run_commits healthy RunTransactionHangOnCommit
                       healthy_cooperative)). Defined.

(** * Runs that stall or fail *)

Section BlamesRules.
Context (world : World).

Lemma blames_ret {A} (a : A) : blames world (mret a).
Proof. by intros s. Qed.

Lemma blames_emit e : blames world (emit e).
Proof. by intros s. Qed.

Lemma blames_date_now : blames world (date_now world).
Proof. by intros s. Qed.

Lemma blames_set_session v : blames world (set_session v).
Proof. by intros s. Qed.

Lemma blames_call c : c ≠ createIndex → blames world (call world c).
Proof.
  intros Hc s. unfold call.
  destruct (reply world (trace s) c) eqn:Hr; simpl; [done | |]; by eexists _, _.
Qed.

Lemma blames_bind {A B} (m : M A) (f : A -> M B) :
  blames world m → (∀ a, blames world (f a)) → blames world (m ≫= f).
Proof.
  intros Hm Hf s. unfold mbind, M_bind.
  specialize (Hm s). destruct (m s) as [[a|err|] s1]; simpl in *; [apply Hf | done..].
Qed.

Lemma blames_try_call e :
  blames world (try_catch (call world createIndex ≫= λ _, emit e) (λ _, mret ())).
Proof.
  intros s. unfold try_catch, mbind, M_bind, call, emit, mret, M_ret.
  destruct (reply world (trace s) createIndex) eqn:Hr; simpl; [done | done |].
  by eexists _, _.
Qed.
End BlamesRules.

Ltac blames_step :=
  lazy zeta;
  first
    [ apply blames_bind; [| intros ?]
    | apply blames_call; discriminate
    | apply blames_try_call
    | apply blames_emit
    | apply blames_ret
    | apply blames_date_now
    | apply blames_set_session
    | match goal with
      | |- blames _ (if ?b then _ else _) => destruct b
      end ].

Lemma body_blames world sc : blames world (body_of world sc).
Proof.
  destruct sc; simpl body_of;
    unfold Tx.body, TxNoTimeout.body, TxHangPause.body, TxHangOnCommit.body,
      TxHangPause.countdown, TxHangOnCommit.countdown, three_inserts,
      log, error_log, stdout_write, sleep;
    cbn [for_loop].
  all: repeat blames_step.
Qed.

Lemma body_no_error_lines world sc :
  Forall (fun e => is_error_line e = false) (trace (body_of world sc initial).2).
Proof.
  apply appends_from_initial.
  destruct sc; simpl; unfold_scripts; appends_auto; done.
Qed.

Lemma finalizer_no_error_lines world :
  appends (fun e => is_error_line e = false) (finalizer world).
Proof. unfold_scripts; appends_auto; done. Qed.

(** X5. A run that does not exit is waiting for a driver call that never
    settles, and that call is the last thing it did; a run that exits with
    status 1 does so because ending the session or closing the connection
    was rejected. *)
Theorem stalled_run_waits_on_driver (world : World) (sc : Script) :
  ((main world sc).1 = None →
     ∃ h c, (main world sc).2 = h ++ [EvCall c] ∧ reply world h c = NeverSettles)
  ∧ ((main world sc).1 = Some 1 →
     ∃ h c err, (main world sc).2
                = h ++ [EvCall c;
                        EvErrorObject (nl +:+ "Unexpected error in main execution:") err;
                        EvExit 1]
                ∧ reply world h c = Rejects err ∧ (c = endSession ∨ c = close)).
Proof.
  rewrite main_unfold, run_of_unfold.
  unfold main_of, try_catch_finally, try_finally, try_catch.
  pose proof (body_blames world sc initial) as Hb.
  destruct (body_of world sc initial) as [[[]|err|] s1]; cbn [fst snd] in *.
  3: { split; [intros _ | done]. destruct Hb as (h & c & -> & Hr). by exists h, c. }
  2: rewrite catch_block_run;
     destruct (bool_decide _ && inTransaction world _);
       [destruct (reply world _ abortTransaction) eqn:Hab |]; cbn [fst snd].
  4: { split; [intros _ | done]. cbn [trace].
       eexists (_ ++ [abort_line]), _. split; [| exact Hab].
       by rewrite <- !app_assoc. }
  all: rewrite finalizer_run; cbn [session trace].
  all: destruct (session s1) as [[]|].
  all: try (destruct (reply world _ endSession) eqn:Hend); cbn [fst snd].
  all: try (destruct (reply world _ close) eqn:Hclose); cbn [fst snd trace].
  all: split; intros [=].
  all: try (eexists _, endSession; first [eexists _ |idtac];
            split_and!; [| exact Hend | eauto ..]; by rewrite <- ?app_assoc).
  all: try (eexists _, close; first [eexists _ |idtac];
            split_and!; [| exact Hclose | eauto ..]; by rewrite <- ?app_assoc).
Qed.

Lemma catch_preamble_elem diagnosis err :
  EvError "ERROR OCCURRED" ∈ catch_preamble diagnosis err.
Proof. unfold catch_preamble. apply elem_of_app. left. set_solver. Qed.

Lemma run_after_throw world sc err s1 :
  body_of world sc initial = (Threw err, s1) →
  (trace s1 ++ catch_preamble (diagnosis_of sc) err) `prefix_of` (main world sc).2.
Proof.
  rewrite main_unfold, run_of_unfold.
  unfold main_of, try_catch_finally, try_finally, try_catch.
  destruct (body_of world sc initial) as [o s] eqn:Hb. intros [= -> ->].
  rewrite catch_block_run. cbv zeta.
  destruct (bool_decide _ && inTransaction world _);
    [destruct (reply world _ abortTransaction) |]; cbn [fst snd].
  3: { cbn [trace]. apply prefix_app_r. reflexivity. }
  all: match goal with
       | |- context [finalizer ?w ?s] =>
           destruct (finalizer_no_error_lines w s) as (evs & E & _);
           destruct (finalizer w s) as [[[]|?|] s2]
       end; cbn [fst snd trace] in *; rewrite E; rewrite <- ?app_assoc;
       apply prefix_app; apply prefix_app_r; reflexivity.
Qed.

(** The banner and diagnosis of the [catch] block are printed exactly when a
    driver call of the body, other than the creation of the index, was
    rejected; they follow that call at once and describe the error it was
    rejected with. *)
Lemma banner_names_rejected_call (world : World) (sc : Script) :
  EvError "ERROR OCCURRED" ∈ (main world sc).2
  ↔ ∃ h c err, reply world h c = Rejects err ∧ c ≠ createIndex
       ∧ (h ++ EvCall c :: catch_preamble (diagnosis_of sc) err)
           `prefix_of` (main world sc).2.
Proof.
  pose proof (body_blames world sc initial) as Hb.
  pose proof (body_no_error_lines world sc) as Hq.
  pose proof (run_after_throw world sc) as Hthrow.
  split.
  - intros Hin.
    destruct (body_of world sc initial) as [[[]|err|] s1] eqn:Hbody; cbn [fst snd] in *.
    + exfalso. revert Hin. rewrite main_unfold, run_of_unfold.
      unfold main_of, try_catch_finally, try_finally, try_catch. rewrite Hbody.
      destruct (finalizer_no_error_lines world s1) as (evs & E & F).
      destruct (finalizer world s1) as [[[]|e'|] s2]; cbn [fst snd] in *;
        rewrite E; intros Hin;
        repeat (apply elem_of_app in Hin as [Hin | Hin]).
      all: try (by apply (proj1 (Forall_forall _ _) Hq) in Hin).
      all: try (by apply (proj1 (Forall_forall _ _) F) in Hin).
      all: apply list_elem_of_In in Hin; simpl in Hin; intuition discriminate.
    + destruct Hb as (h & c & Htr & Hr & Hc).
      exists h, c, err. split_and!; [done.. |].
      specialize (Hthrow err s1 eq_refl). rewrite Htr in Hthrow.
      by rewrite <- app_assoc in Hthrow.
    + exfalso. revert Hin. rewrite main_unfold, run_of_unfold.
      unfold main_of, try_catch_finally, try_finally, try_catch. rewrite Hbody.
      cbn [fst snd]. intros Hin. by apply (proj1 (Forall_forall _ _) Hq) in Hin.
  - intros (h & c & err & _ & _ & Hpre).
    destruct Hpre as [rest ->]. apply elem_of_app. left.
    apply elem_of_app. right. right. apply catch_preamble_elem.
Qed.

(** * The document that a run writes *)

Section OneTargetRules.
Context (world : World).

Lemma one_target_later {A B} (m : M A) (f : A -> M B) :
  appends (fun e => write_target e = None) m →
  (∀ a, one_target (f a)) → one_target (m ≫= f).
Proof.
  intros Hm Hf s. unfold mbind, M_bind.
  destruct (Hm s) as (evs1 & E1 & F1).
  assert (∀ id, Forall (targets id) evs1) as Hany.
  { intros id. eapply Forall_impl; [exact F1 |]. intros e He i. by rewrite He. }
  destruct (m s) as [[a|e|] s1]; simpl in *.
  - destruct (Hf a s1) as (id & evs2 & E2 & F2).
    exists id, (evs1 ++ evs2). rewrite E2, E1, app_assoc.
    split; [done | by apply Forall_app].
  - by exists EmptyString, evs1.
  - by exists EmptyString, evs1.
Qed.

Lemma one_target_from {A} id (m : M A) : appends (targets id) m → one_target m.
Proof. intros Hm s. destruct (Hm s) as (evs & E & F). by exists id, evs. Qed.

Lemma targets_silent id evs :
  Forall (fun e => write_target e = None) evs → Forall (targets id) evs.
Proof. intros H. eapply Forall_impl; [exact H |]. intros e He i. by rewrite He. Qed.

Lemma one_target_try_catch {A} (m : M A) (handler : RawFailure -> M A) :
  one_target m →
  (∀ e, appends (fun e => write_target e = None) (handler e)) →
  one_target (try_catch m handler).
Proof.
  intros Hm Hh s. unfold try_catch.
  destruct (Hm s) as (id & evs1 & E1 & F1).
  destruct (m s) as [[a|e|] s1]; simpl in *.
  - by exists id, evs1.
  - destruct (Hh e s1) as (evs2 & E2 & F2).
    exists id, (evs1 ++ evs2). rewrite E2, E1, app_assoc.
    split; [done |]. apply Forall_app. split; [done | by apply targets_silent].
  - by exists id, evs1.
Qed.

Lemma one_target_try_finally {A} (m : M A) (finalizer : M unit) :
  one_target m →
  appends (fun e => write_target e = None) finalizer →
  one_target (try_finally m finalizer).
Proof.
  intros Hm Hf s. unfold try_finally.
  destruct (Hm s) as (id & evs1 & E1 & F1).
  destruct (m s) as [[a|e|] s1]; simpl in *.
  - destruct (Hf s1) as (evs2 & E2 & F2).
    exists id, (evs1 ++ evs2).
    split; [| apply Forall_app; split; [done | by apply targets_silent]].
    destruct (finalizer s1) as [[[]|e'|] s2]; simpl in *;
      by rewrite E2, E1, app_assoc.
  - destruct (Hf s1) as (evs2 & E2 & F2).
    exists id, (evs1 ++ evs2).
    split; [| apply Forall_app; split; [done | by apply targets_silent]].
    destruct (finalizer s1) as [[[]|e'|] s2]; simpl in *;
      by rewrite E2, E1, app_assoc.
  - by exists id, evs1.
Qed.
End OneTargetRules.

Ltac silent_prefix :=
  solve [unfold log, error_log, stdout_write, sleep;
         first [ apply appends_emit | apply appends_call
               | apply appends_date_now | apply appends_set_session
               | apply appends_try_catch;
                   [apply appends_bind; [apply appends_call | intros ?; apply appends_emit]
                   | intros ?; apply appends_ret] ];
         reflexivity].

Lemma body_one_target world sc : one_target (body_of world sc).
Proof.
  destruct sc; simpl body_of;
    unfold Tx.body, TxNoTimeout.body, TxHangPause.body, TxHangOnCommit.body,
      TxHangPause.countdown, TxHangOnCommit.countdown, three_inserts;
    cbn [for_loop].
  all: repeat (lazy zeta; apply one_target_later; [silent_prefix | intros ?]).
  all: lazy zeta; eapply one_target_from.
  all: appends_auto.
  all: try (intros i [= <-]; reflexivity).
  all: try (by intros i).
Qed.

(** X7. Every write of a run is about one and the same [testId]: the update
    filters on the [testId] of the document inserted before it, and the
    three inserts of the scripts that wait carry one [testId]. *)
Theorem writes_share_one_testId (world : World) (sc : Script) :
  ∃ id, ∀ e i, e ∈ (main world sc).2 → write_target e = Some i → i = id.
Proof.
  assert (one_target (run_of world sc)) as Hrun.
  { rewrite run_of_unfold. unfold try_catch_finally.
    apply one_target_try_finally; [apply one_target_try_catch |].
    - apply body_one_target.
    - intros e. unfold_scripts. appends_auto; done.
    - unfold_scripts. appends_auto; done. }
  destruct (Hrun initial) as (id & evs & E & F). simpl in E.
  destruct (main_of_trace (run_of world sc)) as (tail & Htr & Htail).
  rewrite <- main_unfold in Htr.
  exists id. intros e i Hin. rewrite Htr, E in Hin.
  apply elem_of_app in Hin as [Hin | Hin].
  - exact (proj1 (Forall_forall _ _) F e Hin i).
  - apply (proj1 (Forall_forall _ _) Htail) in Hin. by destruct e.
Qed.


Lemma aborts_catch_preamble diagnosis err : aborts (catch_preamble diagnosis err) = 0%nat.
Proof.
  unfold catch_preamble. rewrite !aborts_app, aborts_errors.
  by rewrite !aborts_none by (by repeat constructor).
Qed.

(** X8. While [session.inTransaction()] answers false no abort is attempted,
    whatever fails: the run goes from the diagnosis straight to the
    [finally] block. *)
Theorem no_abort_outside_transaction (world : World) (sc : Script) :
  (∀ h, inTransaction world h = false) →
  aborts (main world sc).2 = 0%nat ∧ (abort_line ∉ (main world sc).2).
Proof.
  intros Hout.
  assert (appends (fun e => is_abort e = false ∧ e ≠ abort_line) (body_of world sc)) as Hb.
  { destruct sc; simpl; unfold_scripts; appends_auto; done. }
  assert (appends (fun e => is_abort e = false ∧ e ≠ abort_line) (finalizer world)) as Hf.
  { unfold_scripts; appends_auto; done. }
  apply appends_from_initial in Hb.
  assert (Forall (fun e => is_abort e = false ∧ e ≠ abort_line) (main world sc).2) as Hall.
  { rewrite main_unfold, run_of_unfold.
    unfold main_of, try_catch_finally, try_finally, try_catch.
    destruct (body_of world sc initial) as [[[]|err|] s1]; cbn [fst snd] in *.
    3: done.
    2: rewrite catch_block_run, Hout, andb_false_r; cbv zeta.
    all: match goal with
         | |- context [finalizer ?w ?s] =>
             destruct (Hf s) as (evs & E & F);
             destruct (finalizer w s) as [[[]|?|] s2]
         end; cbn [fst snd trace] in *; rewrite E.
    all: repeat (apply Forall_app; split); try done.
    all: try (by repeat constructor).
    all: apply Forall_fmap, Forall_true; done. }
  split.
  - apply aborts_none. eapply Forall_impl; [exact Hall |]. by intros e [].
  - intros Hin. by destruct (proj1 (Forall_forall _ _) Hall _ Hin).
Qed.

Lemma no_abort_outside_transaction_witness :
  aborts (main transaction_given_up (RunTransaction ∅)).2 = 0%nat.
Proof.
  exact (proj1 (no_abort_outside_transaction transaction_given_up (RunTransaction ∅)
                  (fun _ => eq_refl))).
Defined.

(** * What a run makes of the driver's answers *)

Lemma singleton_split {A} (x y : A) h rest :
  [x] = h ++ y :: rest → h = [] ∧ x = y ∧ rest = [].
Proof. destruct h as [|a [|b h]]; intros; by simplify_eq/=. Qed.

Section HeedsRules.
Context (world : World).

Lemma heeds_silent {A} (m : M A) :
  appends (fun e => kind_of e = None) m → heeds world m.
Proof.
  intros Hm s. destruct (Hm s) as (evs & E & F). exists evs. split; [done |].
  intros h c rest ->. apply Forall_app in F as [_ F]. by inversion F.
Qed.

Lemma heeds_call c : heeds world (call world c).
Proof.
  intros s. exists [EvCall c]. unfold call.
  split; [by destruct (reply world (trace s) c) |].
  intros h c' rest (-> & [= <-] & ->)%singleton_split.
  rewrite app_nil_r. destruct (reply world (trace s) c); simpl; auto.
Qed.

Lemma heeds_bind {A B} (m : M A) (f : A -> M B) :
  heeds world m → (∀ a, heeds world (f a)) → heeds world (m ≫= f).
Proof.
  intros Hm Hf s. unfold mbind, M_bind.
  destruct (Hm s) as (evs1 & E1 & H1).
  destruct (m s) as [[a|err|] s1] eqn:Hms; simpl in *;
    [| exists evs1; split; [done |]; intros h c rest Heq;
       specialize (H1 h c rest Heq);
       destruct (reply world (trace s ++ h) c); [done | |];
       [ destruct H1 as [-> | [-> Ho]]; [by left | right; split; [done |]; congruence]
       | destruct H1 as [-> Ho]; split; [done |]; congruence ] ..].
  destruct (Hf a s1) as (evs2 & E2 & H2).
  exists (evs1 ++ evs2). split; [by rewrite E2, E1, app_assoc |].
  intros h c rest Heq.
  apply app_eq_app in Heq as [l [[-> Heq] | [-> ->]]].
  - destruct l as [|x l]; simpl in Heq.
    + subst evs2. specialize (H2 [] c rest eq_refl).
      by rewrite E1, !app_nil_r in *.
    + injection Heq as <- ->. specialize (H1 h c l eq_refl).
      destruct (reply world (trace s ++ h) c); [done | |].
      * destruct H1 as [-> | [_ [=]]]. by left.
      * by destruct H1 as [_ [=]].
  - specialize (H2 l c rest eq_refl). by rewrite E1, <- app_assoc in H2.
Qed.

(** [try { await createIndex; log } catch { }] *)
Lemma heeds_try_call e :
  kind_of e = None →
  heeds world (try_catch (call world createIndex ≫= λ _, emit e) (λ _, mret ())).
Proof.
  intros He s. unfold try_catch, mbind, M_bind, call, emit, mret, M_ret.
  destruct (reply world (trace s) createIndex) eqn:Hr; simpl.
  - exists [EvCall createIndex; e]. split; [by rewrite <- app_assoc |].
    intros h c rest Heq. destruct h as [|x [|y [|z h]]]; simplify_eq/=.
    by rewrite app_nil_r, Hr.
  - exists [EvCall createIndex]. split; [done |].
    intros h c rest (-> & [= <-] & ->)%singleton_split.
    rewrite app_nil_r, Hr. by left.
  - exists [EvCall createIndex]. split; [done |].
    intros h c rest (-> & [= <-] & ->)%singleton_split.
    by rewrite app_nil_r, Hr.
Qed.
End HeedsRules.

Ltac heeds_step :=
  lazy zeta;
  first
    [ apply heeds_bind; [| intros ?]
    | apply heeds_call
    | apply heeds_try_call; reflexivity
    | apply heeds_silent;
        first [ apply appends_emit | apply appends_ret | apply appends_date_now
              | apply appends_set_session ]; reflexivity
    | match goal with
      | |- heeds _ (if ?b then _ else _) => destruct b
      end ].

Lemma body_heeds world sc : heeds world (body_of world sc).
Proof.
  destruct sc; simpl body_of;
    unfold Tx.body, TxNoTimeout.body, TxHangPause.body, TxHangOnCommit.body,
      TxHangPause.countdown, TxHangOnCommit.countdown, three_inserts,
      log, error_log, stdout_write, sleep;
    cbn [for_loop].
  all: repeat heeds_step.
Qed.

Lemma cleanup_errors lines : Forall (fun e => is_cleanup e = true) (EvError <$> lines).
Proof. by apply Forall_fmap, Forall_true. Qed.

Lemma cleanup_catch_preamble diagnosis err :
  Forall (fun e => is_cleanup e = true) (catch_preamble diagnosis err).
Proof.
  unfold catch_preamble. repeat (apply Forall_app; split).
  - by repeat constructor.
  - apply cleanup_errors.
  - by repeat constructor.
Qed.

(** After the [try] block: what a run adds to the trace of its body is
    console output, the exit and calls that clean up, and it begins with the
    report of the error if the body threw one. *)
Lemma run_tail world sc :
  ∃ tail, (main world sc).2 = trace (body_of world sc initial).2 ++ tail
    ∧ Forall (fun e => is_cleanup e = true) tail
    ∧ ∀ err, (body_of world sc initial).1 = Threw err →
             catch_preamble (diagnosis_of sc) err `prefix_of` tail.
Proof.
  rewrite main_unfold, run_of_unfold.
  unfold main_of, try_catch_finally, try_finally, try_catch.
  destruct (body_of world sc initial) as [[[]|err|] s1]; cbn [fst snd].
  3: { exists []. rewrite app_nil_r. by split_and!. }
  2: rewrite catch_block_run;
     destruct (bool_decide _ && inTransaction world _);
       [destruct (reply world _ abortTransaction) |]; cbn [fst snd].
  4: { eexists. cbn [trace]. rewrite <- app_assoc. split; [reflexivity |]. split.
       - apply Forall_app. split; [apply cleanup_catch_preamble | by repeat constructor].
       - intros ? [= <-]. by apply prefix_app_r. }
  all: rewrite finalizer_run; cbn [session trace].
  all: destruct (session s1) as [[]|].
  all: try (destruct (reply world _ endSession)); cbn [fst snd]; norm_trace.
  all: try (destruct (reply world _ close)); cbn [fst snd]; norm_trace.
  all: eexists; (split; [reflexivity |]); split.
  all: try (intros ? [= <-]; by apply prefix_app_r).
  all: try (by intros ? [=]).
  all: repeat match goal with
              | |- Forall _ (catch_preamble _ _) => apply cleanup_catch_preamble
              | |- Forall _ (_ ++ _) => apply Forall_app; split
              | |- Forall _ (_ :: _) => constructor; [done |]
              | |- Forall _ [] => constructor
              end.
Qed.

Lemma steps_cleanup tail :
  Forall (fun e => is_cleanup e = true) tail → steps tail = [].
Proof.
  intros H. apply steps_silent. eapply Forall_impl; [exact H |].
  intros [[]| | | | | |]; done.
Qed.

Lemma cleanup_call tail c :
  Forall (fun e => is_cleanup e = true) tail → EvCall c ∈ tail →
  reported_when_rejected c = false.
Proof.
  intros H Hin. apply (proj1 (Forall_forall _ _) H) in Hin. by destruct c.
Qed.

(** X6. The report of the [catch] block and the rejection of a call of the
    [try] block go together.  If the banner is on the trace, a driver call
    other than the creation of the index was rejected, and the banner, the
    raw fields and the diagnosis of the error it was rejected with follow
    that call at once.  And every call of a [try] block on the trace, other
    than the creation of the index, that the driver rejected is followed at
    once by the banner, the raw fields and the diagnosis of its error. *)
Theorem diagnosis_is_of_rejected_call (world : World) (sc : Script) :
  (EvError "ERROR OCCURRED" ∈ (main world sc).2 →
     ∃ h c err, reply world h c = Rejects err ∧ c ≠ createIndex
       ∧ (h ++ EvCall c :: catch_preamble (diagnosis_of sc) err)
           `prefix_of` (main world sc).2)
  ∧ (∀ h c rest err,
       (main world sc).2 = h ++ EvCall c :: rest →
       reported_when_rejected c = true →
       reply world h c = Rejects err →
       catch_preamble (diagnosis_of sc) err `prefix_of` rest).
Proof.
  split; [apply banner_names_rejected_call |].
  intros h c rest err Htr Hc Hrej.
  destruct (run_tail world sc) as (tail & Hmain & Htail & Hpre).
  destruct (body_heeds world sc initial) as (evs & E & Hh). simpl in E.
  rewrite Hmain, E in Htr.
  apply app_eq_app in Htr as [l [[-> Heq] | [-> ->]]].
  - destruct l as [|x l]; simpl in Heq.
    + exfalso. subst tail.
      assert (reported_when_rejected c = false) as Hno
        by (apply (cleanup_call _ _ Htail); by left).
      congruence.
    + injection Heq as <- ->.
      specialize (Hh h c l eq_refl). simpl in Hh. rewrite Hrej in Hh.
      destruct Hh as [-> | [-> Hthrew]]; [done |].
      by apply Hpre.
  - exfalso.
    assert (reported_when_rejected c = false) as Hno.
    { apply (cleanup_call _ _ Htail). apply elem_of_app. right. by left. }
    congruence.
Qed.

(** ** The checkpoint before the commit *)

Section ReachRules.
Context (world : World).
Context (Hok : ∀ h c, precedes_commit c = true → ∃ r, reply world h c = Resolves r).

Lemma returns_call_resolved c : precedes_commit c = true → returns (call world c).
Proof.
  intros Hc s. unfold call. destruct (Hok (trace s) c Hc) as [r ->]. by eexists _, _.
Qed.
End ReachRules.

Ltac returns_resolved_step Hok :=
  lazy zeta;
  match goal with
  | |- returns (_ ≫= _) => apply returns_bind; [| intros ?]
  | |- returns (call _ _) => apply (returns_call_resolved _ Hok); reflexivity
  | |- returns (emit _) => apply returns_emit
  | |- returns (mret _) => apply returns_ret
  | |- returns (date_now _) => apply returns_date_now
  | |- returns (set_session _) => apply returns_set_session
  | |- returns (if ?b then _ else _) => destruct b
  end.

Ltac reach_step Hok :=
  lazy zeta;
  match goal with
  | |- issues _ (call _ commitTransaction ≫= _) =>
      apply issues_bind_now;
      [by apply issues_call | intros ?; unfold log; appends_auto; done]
  | |- issues _ (_ ≫= _) =>
      apply issues_bind_later; [solve [repeat returns_resolved_step Hok] | intros ?]
  end.

Lemma hang_body_reaches_commit world sc :
  sc = RunTransactionHangPause ∨ sc = RunTransactionHangOnCommit →
  (∀ h c, precedes_commit c = true → ∃ r, reply world h c = Resolves r) →
  EvCall commitTransaction ∈ (main world sc).2.
Proof.
  intros Hsc Hok.
  rewrite main_unfold.
  destruct (main_of_trace (run_of world sc)) as (tail & -> & _).
  apply elem_of_app. left. rewrite run_of_unfold.
  apply issues_try_catch_finally.
  - destruct Hsc as [-> | ->]; simpl body_of;
      unfold TxHangPause.body, TxHangOnCommit.body,
        TxHangPause.countdown, TxHangOnCommit.countdown, three_inserts,
        log, error_log, stdout_write, sleep;
      cbn [for_loop];
      repeat reach_step Hok.
  - intros err. unfold_scripts. appends_auto; done.
Qed.

(** A call of a run, other than the creation of the index, after which the
    run took a further step -- a write, a wait or the commit -- had
    resolved. *)
Lemma resolved_before_next_step world sc h c rest :
  (main world sc).2 = h ++ EvCall c :: rest →
  c ≠ createIndex →
  steps rest ≠ [] →
  ∃ r, reply world h c = Resolves r.
Proof.
  intros Htr Hc Hnext.
  destruct (run_tail world sc) as (tail & Hmain & Htail & _).
  destruct (body_heeds world sc initial) as (evs & E & Hh). simpl in E.
  rewrite Hmain, E in Htr.
  apply app_eq_app in Htr as [l [[-> Heq] | [-> ->]]].
  - destruct l as [|x l]; simpl in Heq.
    + exfalso. apply Hnext. subst tail. apply Forall_cons in Htail as [_ Htail].
      by apply steps_cleanup.
    + injection Heq as <- ->.
      specialize (Hh h c l eq_refl). simpl in Hh.
      assert (l ≠ []) as Hl.
      { intros ->. apply Hnext. by apply steps_cleanup. }
      destruct (reply world h c) as [r|err|]; [by exists r | |].
      * by destruct Hh as [-> | [-> _]].
      * by destruct Hh as [-> _].
  - exfalso. apply Hnext. apply Forall_app in Htail as [_ Htail].
    apply Forall_cons in Htail as [_ Htail]. by apply steps_cleanup.
Qed.

Lemma hang_run_never_creates_index world sc :
  sc = RunTransactionHangPause ∨ sc = RunTransactionHangOnCommit →
  EvCall createIndex ∉ (main world sc).2.
Proof.
  intros Hsc Hin.
  assert (appends (fun e => e ≠ EvCall createIndex) (run_of world sc)) as Hrun.
  { rewrite run_of_unfold. unfold try_catch_finally.
    destruct Hsc as [-> | ->]; simpl; unfold_scripts; appends_auto; done. }
  apply appends_from_initial in Hrun.
  destruct (main_of_trace (run_of world sc)) as (tail & Htr & Htail).
  rewrite <- main_unfold in Htr. rewrite Htr in Hin.
  apply elem_of_app in Hin as [Hin | Hin].
  - by apply (proj1 (Forall_forall _ _) Hrun) in Hin.
  - by apply (proj1 (Forall_forall _ _) Htail) in Hin.
Qed.

(** C8: in [runTransactionHangPause] and [runTransactionHangOnCommit] the
    steps of every run are, in this order, insert 1, insert 2, insert 3, the
    countdown (15 waits of a second; 30 waits of a second and one of five
    seconds), the commit: a run either does all of them, each once, or stops
    somewhere before the commit and then never asks for it, and no write and
    no wait comes after the commit.  A run does all of them whenever the
    driver resolves the calls that come before the commit (connect, the
    start of the session and of the transaction, the inserts), whatever
    becomes of the commit itself.  And a step is taken only when the calls
    before it are complete: a driver call after which the run took a
    further step -- a write, a wait, the commit -- had resolved. *)
Theorem checkpoint_before_commit (world : World) :
  (steps (TxHangPause.main world).2 = hang_pause_before_commit ++ [StepCommit]
   ∨ (steps (TxHangPause.main world).2 `prefix_of` hang_pause_before_commit
      ∧ EvCall commitTransaction ∉ (TxHangPause.main world).2))
  ∧ (steps (TxHangOnCommit.main world).2 = hang_on_commit_before_commit ++ [StepCommit]
     ∨ (steps (TxHangOnCommit.main world).2 `prefix_of` hang_on_commit_before_commit
        ∧ EvCall commitTransaction ∉ (TxHangOnCommit.main world).2))
  ∧ ((∀ h c, precedes_commit c = true → ∃ r, reply world h c = Resolves r) →
     steps (TxHangPause.main world).2 = hang_pause_before_commit ++ [StepCommit]
     ∧ steps (TxHangOnCommit.main world).2 = hang_on_commit_before_commit ++ [StepCommit])
  ∧ (∀ h c rest,
       (TxHangPause.main world).2 = h ++ EvCall c :: rest
       ∨ (TxHangOnCommit.main world).2 = h ++ EvCall c :: rest →
       steps rest ≠ [] →
       ∃ r, reply world h c = Resolves r).
Proof.
  destruct (hang_scripts_in_order world) as [Hpause Hcommit].
  split_and!; [done | done | |].
  - intros Hok. split.
    + destruct Hpause as [? | [_ Hno]]; [done |]. destruct Hno.
      apply (hang_body_reaches_commit world RunTransactionHangPause); auto.
    + destruct Hcommit as [? | [_ Hno]]; [done |]. destruct Hno.
      apply (hang_body_reaches_commit world RunTransactionHangOnCommit); auto.
  - intros h c rest [Htr | Htr] Hnext.
    + apply (resolved_before_next_step world RunTransactionHangPause h c rest);
        [done | | done].
      intros ->.
      apply (hang_run_never_creates_index world RunTransactionHangPause); [by left |].
      change (main world RunTransactionHangPause) with (TxHangPause.main world).
      rewrite Htr. apply elem_of_app. right. by left.
    + apply (resolved_before_next_step world RunTransactionHangOnCommit h c rest);
        [done | | done].
      intros ->.
      apply (hang_run_never_creates_index world RunTransactionHangOnCommit); [by right |].
      change (main world RunTransactionHangOnCommit) with (TxHangOnCommit.main world).
      rewrite Htr. apply elem_of_app. right. by left.
Qed.

Lemma checkpoint_before_commit_witness :
  steps (TxHangOnCommit.main commit_hangs).2
  = hang_on_commit_before_commit ++ [StepCommit].
Proof.
  refine (proj2 (proj1 (proj2 (proj2 (checkpoint_before_commit commit_hangs))) _)).
  intros h c Hc. destruct c; try discriminate Hc; by eexists.
Defined.

(** * Reading an integer back *)

Lemma digit_value_pretty_N_char (d : N) :
  (d < 10)%N → digit_value (pretty_N_char d) = Some (Z.of_N d).
Proof.
  intros Hd.
  assert (d = 0 ∨ d = 1 ∨ d = 2 ∨ d = 3 ∨ d = 4 ∨ d = 5 ∨ d = 6 ∨ d = 7
          ∨ d = 8 ∨ d = 9)%N as H by lia.
  repeat (destruct H as [-> | H]; [reflexivity |]). by subst.
Qed.

Lemma pretty_N_go_app (x : N) (s t : string) :
  pretty_N_go x s +:+ t = pretty_N_go x (s +:+ t).
Proof.
  revert s. induction (N.lt_wf_0 x) as [x _ IH]; intros s.
  assert (x = 0 ∨ 0 < x)%N as [-> | Hx] by lia.
  - by rewrite !pretty_N_go_0.
  - rewrite (pretty_N_go_step x s), (pretty_N_go_step x (s +:+ t)) by done.
    rewrite IH by (by apply N.div_lt). reflexivity.
Qed.

Lemma pretty_N_go_head (x : N) (s : string) :
  (0 < x)%N → ∃ d rest, (d < 10)%N ∧ pretty_N_go x s = String (pretty_N_char d) rest.
Proof.
  revert s. induction (N.lt_wf_0 x) as [x _ IH]; intros s Hx.
  rewrite pretty_N_go_step by done.
  destruct (N.eq_0_gt_0_cases (x `div` 10)) as [-> | Hq].
  - rewrite pretty_N_go_0. eexists _, _. split; [| done]. by apply N.mod_lt.
  - apply IH; [by apply N.div_lt | done].
Qed.

Lemma leading_digits_pretty_N_go (x : N) (s : string) :
  (0 < x)%N →
  leading_digits (pretty_N_go x s) None = leading_digits s (Some (Z.of_N x)).
Proof.
  revert s. induction (N.lt_wf_0 x) as [x _ IH]; intros s Hx.
  rewrite pretty_N_go_step by done.
  assert (x `mod` 10 < 10)%N as Hm by (by apply N.mod_lt).
  destruct (N.eq_0_gt_0_cases (x `div` 10)) as [Hq | Hq].
  - rewrite Hq, pretty_N_go_0. simpl.
    rewrite digit_value_pretty_N_char by done. do 2 f_equal.
    pose proof (N.div_mod x 10). lia.
  - rewrite IH by (by try apply N.div_lt). simpl.
    rewrite digit_value_pretty_N_char by done. do 2 f_equal.
    pose proof (N.div_mod x 10). lia.
Qed.

Lemma leading_digits_done (s : string) (n : Z) :
  starts_with_digit s = false → leading_digits s (Some n) = Some n.
Proof.
  destruct s as [|c rest]; simpl; [done |].
  intros H%bool_decide_eq_false. destruct (digit_value c); [| done].
  by destruct H.
Qed.

Lemma trim_start_white (ws s : string) :
  all_white_space ws = true → trim_start (ws +:+ s) = trim_start s.
Proof.
  induction ws as [|c ws IH]; simpl; [done |].
  intros [-> H]%andb_prop. by apply IH.
Qed.

Lemma parseInt_white (ws s : string) :
  all_white_space ws = true → parseInt (ws +:+ s) = parseInt s.
Proof. intros H. unfold parseInt. by rewrite trim_start_white. Qed.

Lemma parseInt_digit_head (d : N) (rest : string) :
  (d < 10)%N →
  parseInt (String (pretty_N_char d) rest)
  = match leading_digits (String (pretty_N_char d) rest) None with
    | Some n => Num (1 * n)
    | None => NaN
    end.
Proof.
  intros Hd.
  assert (d = 0 ∨ d = 1 ∨ d = 2 ∨ d = 3 ∨ d = 4 ∨ d = 5 ∨ d = 6 ∨ d = 7
          ∨ d = 8 ∨ d = 9)%N as H by lia.
  repeat (destruct H as [-> | H]; [reflexivity |]). by subst.
Qed.

Lemma parseInt_minus (s : string) :
  parseInt (String "-" s)
  = match leading_digits s None with
    | Some n => Num (-1 * n)
    | None => NaN
    end.
Proof. reflexivity. Qed.

Lemma parseInt_positive (x : N) (suffix : string) :
  (0 < x)%N → starts_with_digit suffix = false →
  parseInt (pretty_N_go x suffix) = Num (Z.of_N x)
  ∧ parseInt (String "-" (pretty_N_go x suffix)) = Num (- Z.of_N x).
Proof.
  intros Hx Hs.
  pose proof (leading_digits_pretty_N_go x suffix Hx) as Hl.
  rewrite leading_digits_done in Hl by done.
  split.
  - destruct (pretty_N_go_head x suffix Hx) as (d & rest & Hd & Hhead).
    rewrite Hhead in *. rewrite parseInt_digit_head, Hl by done. f_equal; lia.
  - rewrite parseInt_minus, Hl. f_equal; lia.
Qed.

(** [parseInt] reads back the decimal rendering of an integer, whatever
    white space precedes it and whatever follows it that is not a digit. *)
Lemma parseInt_pretty (z : Z) (ws suffix : string) :
  all_white_space ws = true → starts_with_digit suffix = false →
  parseInt (ws +:+ pretty z +:+ suffix) = Num z.
Proof.
  intros Hws Hs. rewrite parseInt_white by done.
  destruct z as [|p|p]; unfold pretty, pretty_Z.
  - change (parseInt (String "0" suffix) = Num 0). unfold parseInt. simpl.
    by rewrite leading_digits_done.
  - unfold pretty, pretty_positive, pretty, pretty_N.
    rewrite decide_False by done. rewrite pretty_N_go_app. simpl (EmptyString +:+ _).
    by apply (parseInt_positive (N.pos p)).
  - unfold pretty, pretty_positive, pretty, pretty_N.
    rewrite decide_False by done.
    change (("-" +:+ pretty_N_go (N.pos p) EmptyString) +:+ suffix)
      with (String "-" (pretty_N_go (N.pos p) EmptyString +:+ suffix)).
    rewrite pretty_N_go_app. simpl (EmptyString +:+ _).
    by apply (parseInt_positive (N.pos p)).
Qed.

(** X9. A timeout variable set to the decimal rendering of an integer,
    after any white space and before anything that is not a digit (a unit,
    say), reaches the driver as that integer; and the line on which the
    script echoes the value, with its [ms], reads back as the same
    integer. *)
Theorem knob_reads_leading_integer (k : Knob) (env : Env) (z : Z) (ws suffix : string) :
  env !! knob_variable k = Some (ws +:+ pretty z +:+ suffix) →
  all_white_space ws = true →
  starts_with_digit suffix = false →
  Z.abs z <= MAX_EXACT →
  knob_in_options k env = Some (Num z)
  ∧ parseInt (show_number (Num z) +:+ "ms") = Num z.
Proof.
  intros Hset Hws Hs _.
  pose proof (parseInt_pretty z ws suffix Hws Hs) as Hp.
  split.
  - rewrite knob_in_options_read, Hset, or_else_set; [by rewrite Hp |].
    intros Heq. by rewrite Heq in Hp.
  - exact (parseInt_pretty z EmptyString "ms" eq_refl eq_refl).
Qed.

Lemma knob_reads_leading_integer_witness :
  knob_in_options CommitKnob padded_commit_env = Some (Num (-250)).
Proof.
  refine (proj1 (knob_reads_leading_integer CommitKnob padded_commit_env (-250)
                   " " "ms" _ _ _ _)).
  - by vm_compute.
  - reflexivity.
  - reflexivity.
  - by vm_compute.
Defined.

(** * The RPC smoke test *)

Section WorkerProperties.
Import Worker.

Ltac run_worker :=
  unfold Worker.main, testWorkerTimeouts, task_finally, task_catch, operations,
    report, request, destroy, Date_now, lift, raise, say, process_exit,
    mbind, Task_bind, mret, Task_ret;
  lazy beta iota zeta.

(** Follow a run of the test along the answers of the peer. *)
Ltac worker_cases :=
  repeat (lazy beta iota zeta;
          match goal with
          | |- context [answer ?peer ?h ?k ?m ?p] =>
              destruct (answer peer h k m p) as [[?|]|? ?|] eqn:?
          | |- context [get ?v ?p] => destruct (get v p) as [?|?] eqn:?
          | |- context [destroyed ?peer ?h] =>
              destruct (destroyed peer h) as [?|? ?|] eqn:?
          end).

Lemma missing_false hex : missing (Some hex) = false ↔ hex ≠ EmptyString.
Proof. by destruct hex. Qed.

(** Set up a proof about a run with a key: the statement becomes a
    predicate [Q] of the run, and the run is unfolded. *)
Ltac worker_run Hhex :=
  match goal with
  | |- context [Worker.main ?peer ?a] => pattern (Worker.main peer a)
  end;
  match goal with
  | |- ?P _ => let q := fresh "Q" in set (q := P)
  end;
  unfold Worker.main, testWorkerTimeouts; rewrite Hhex;
  run_worker; worker_cases;
  match goal with
  | q := _ |- _ => subst q
  end;
  cbn [fst snd].

Ltac invert_elem H :=
  apply list_elem_of_In in H; cbn [In app] in H;
  repeat (destruct H as [H | H]; [try discriminate H |]); [.. | destruct H].

Lemma suffix_3 {A} (h : list A) a b c :
  [a; b; c] `suffix_of` ((h ++ [a]) ++ [b]) ++ [c].
Proof. exists h. by rewrite <- !app_assoc. Qed.

Lemma suffix_4 {A} (h : list A) a b c d :
  [a; b; c; d] `suffix_of` (((h ++ [a]) ++ [b]) ++ [c]) ++ [d].
Proof. exists h. by rewrite <- !app_assoc. Qed.

(** X11. Without a key the test prints its usage and exits with status 1 before
    it has made an RPC object; with a key it begins by making one and never
    calls [process.exit]. *)
Theorem usage_exit_iff_key_missing (peer : Peer) (argv2 : option string) :
  (missing argv2 = true →
     (Worker.main peer argv2).1 = Exits 1
     ∧ rpc_operations (Worker.main peer argv2).2 = []
     ∧ length (Worker.main peer argv2).2 = 2%nat)
  ∧ (missing argv2 = false →
     (∀ status, (Worker.main peer argv2).1 ≠ Exits status)
     ∧ head (Worker.main peer argv2).2 = Some NewRPC).
Proof.
  split.
  - intros Hmiss. unfold Worker.main, testWorkerTimeouts. rewrite Hmiss. done.
  - intros Hhex. worker_run Hhex.
    all: by split.
Qed.

(** X12. With a key, the RPC operations of a run are: one [new RPC()], then
    requests for a non-empty prefix of addWallet, getWallet, listWallets,
    all with the key decoded from the argument, then one [destroy]; the
    [destroy] is missing only from a run that hangs. *)
Theorem rpc_session_protocol (peer : Peer) (hex : string) :
  hex ≠ EmptyString →
  ∃ reqs fin,
    rpc_operations (Worker.main peer (Some hex)).2 = NewRPC :: reqs ++ fin
    ∧ methods reqs `prefix_of` ["addWallet"; "getWallet"; "listWallets"]
    ∧ head (methods reqs) = Some "addWallet"
    ∧ Forall (fun e => ∃ m p, e = Request (Buffer_from_hex hex) m p) reqs
    ∧ (fin = [Destroy] ∨ fin = [] ∧ (Worker.main peer (Some hex)).1 = Hangs).
Proof.
  intros Hhex%missing_false.
  exists (filter (fun e => is_Some (method_of e)) (Worker.main peer (Some hex)).2),
         (filter (fun e => is_destroy e = true) (Worker.main peer (Some hex)).2).
  worker_run Hhex.
  all: split_and!;
    [ reflexivity
    | solve_prefix
    | reflexivity
    | repeat constructor; by eexists _, _
    | first [by left | by right] ].
Qed.

Lemma rpc_session_protocol_witness :
  ∃ reqs fin,
    rpc_operations (Worker.main unreachable (Some "c0ffee")).2 = NewRPC :: reqs ++ fin
    ∧ methods reqs `prefix_of` ["addWallet"; "getWallet"; "listWallets"]
    ∧ head (methods reqs) = Some "addWallet"
    ∧ Forall (fun e => ∃ m p, e = Request (Buffer_from_hex "c0ffee") m p) reqs
    ∧ (fin = [Destroy] ∨ fin = [] ∧ (Worker.main unreachable (Some "c0ffee")).1 = Hangs).
Proof. apply rpc_session_protocol. discriminate. Defined.

(** X13. With a key, a run hangs only in an [await] of a request or of
    [destroy] that the peer never settles, and that is the last thing it
    did. *)
Theorem worker_hangs_only_on_silence (peer : Peer) (hex : string) :
  hex ≠ EmptyString →
  (Worker.main peer (Some hex)).1 = Hangs →
  ∃ h e, (Worker.main peer (Some hex)).2 = h ++ [e]
    ∧ ((∃ k m p, e = Request k m p ∧ answer peer h k m p = Silent)
       ∨ (e = Destroy ∧ destroyed peer h = Silent)).
Proof.
  intros Hhex%missing_false.
  worker_run Hhex.
  all: intros [=].
  all: eexists _, _; split; [reflexivity |].
  all: first [ left; eexists _, _, _; split; [reflexivity | eassumption]
             | right; split; [reflexivity | eassumption] ].
Qed.

(** X14. The wallet that is fetched is the one that was created: a getWallet
    request is made only after addWallet was answered with a body whose
    first element has an [id] to read, and it asks for just that [id]; and
    listWallets asks for the [userId] that addWallet was called with. *)
Theorem fetch_asks_for_created_wallet (peer : Peer) (hex : string) :
  hex ≠ EmptyString →
  (∀ k payload, Request k "getWallet" payload ∈ (Worker.main peer (Some hex)).2 →
     ∃ h added body first id,
       answer peer h k "addWallet" added = Answers (Some body)
       ∧ get (Parsed body) P0 = inr first
       ∧ get first Pid = inr id
       ∧ payload = JObj (field "id" id))
  ∧ (∀ k payload, Request k "listWallets" payload ∈ (Worker.main peer (Some hex)).2 →
     ∃ userId wallets,
       payload = JObj [("userId", JStr userId)]
       ∧ Request k "addWallet" (JObj [("userId", JStr userId); ("wallets", wallets)])
           ∈ (Worker.main peer (Some hex)).2).
Proof.
  intros Hhex%missing_false.
  worker_run Hhex.
  all: split; intros k payload Hin; invert_elem Hin; simplify_eq.
  all: try (eexists _, _, _, _, _; split_and!; [eassumption.. | reflexivity]).
  all: eexists _, _; split; [reflexivity |].
  all: apply list_elem_of_In; cbn [In app]; tauto.
Qed.

Lemma run_after_greeting peer hex :
  hex ≠ EmptyString →
  testWorkerTimeouts peer (Some hex) []
  = task_finally (task_catch (operations peer (Buffer_from_hex hex)) (report))
                 (destroy peer) (greeting hex).
Proof. by destruct hex. Qed.

(** [try { body } catch (err) { report } finally { destroy }] when the body
    throws. *)
Lemma thrown_is_reported peer (body : Task unit) tr0 err tr1 :
  body tr0 = (Throw err, tr1) →
  (task_finally (task_catch body report) (destroy peer) tr0).2
  = tr1 ++ [ErrorMessage "Error:" err; ErrorStack "Stack:" err; Destroy]
  ∧ ∀ status, (task_finally (task_catch body report) (destroy peer) tr0).1 ≠ Exit status.
Proof.
  intros Hb. unfold task_finally, task_catch. rewrite Hb.
  unfold report, destroy, say, mbind, Task_bind. cbn [fst snd].
  destruct (destroyed peer _); cbn [fst snd]; by rewrite <- !app_assoc.
Qed.

Lemma thrown_reaches_report peer hex err tr1 :
  hex ≠ EmptyString →
  operations peer (Buffer_from_hex hex) (greeting hex) = (Throw err, tr1) →
  ∃ last_line,
    (Worker.main peer (Some hex)).2
    = tr1 ++ [ErrorMessage "Error:" err; ErrorStack "Stack:" err; Destroy] ++ last_line
    ∧ (last_line = [] ∨ ∃ err', last_line = [ErrorObject err']).
Proof.
  intros Hhex Hop. unfold Worker.main. rewrite run_after_greeting by done.
  destruct (thrown_is_reported peer _ _ _ _ Hop) as [Htr Hout].
  destruct (task_finally _ _ _) as [[[]|err'| |status] tr]; cbn [fst snd] in *; subst.
  - exists []. rewrite app_nil_r. split; [done | by left].
  - exists [ErrorObject err']. rewrite <- app_assoc. split; [done | right; by eexists].
  - exists []. rewrite app_nil_r. split; [done | by left].
  - by destruct (Hout status).
Qed.

(** X15. What is thrown inside the [try] block is reported and goes no
    further.  Whenever the operations of the [try] block throw, the two
    lines about the error thrown follow at once, then [destroy], and after
    that at most the line of the caller's [catch].  The two lines occur
    only in this place; and the only error that reaches the caller's
    [catch] is a rejection of [destroy] itself. *)
Theorem failure_is_reported_then_destroyed (peer : Peer) (hex : string) :
  hex ≠ EmptyString →
  (∀ err tr1,
     operations peer (Buffer_from_hex hex) (greeting hex) = (Throw err, tr1) →
     ∃ last_line,
       (Worker.main peer (Some hex)).2
       = tr1 ++ [ErrorMessage "Error:" err; ErrorStack "Stack:" err; Destroy] ++ last_line
       ∧ (last_line = [] ∨ ∃ err', last_line = [ErrorObject err']))
  ∧ (∀ err, ErrorMessage "Error:" err ∈ (Worker.main peer (Some hex)).2 →
     [ErrorMessage "Error:" err; ErrorStack "Stack:" err; Destroy]
       `suffix_of` (Worker.main peer (Some hex)).2
     ∨ ∃ err', [ErrorMessage "Error:" err; ErrorStack "Stack:" err; Destroy;
                ErrorObject err'] `suffix_of` (Worker.main peer (Some hex)).2)
  ∧ (∀ err, ErrorObject err ∈ (Worker.main peer (Some hex)).2 →
     ∃ h message stack,
       (Worker.main peer (Some hex)).2 = h ++ [Destroy; ErrorObject err]
       ∧ destroyed peer h = Refuses message stack
       ∧ err = RequestError message stack).
Proof.
  intros Hne. split.
  { intros err tr1. by apply thrown_reaches_report. }
  apply missing_false in Hne as Hhex.
  worker_run Hhex.
  all: split; intros err Hin; invert_elem Hin; simplify_eq.
  all: try (left; apply suffix_3).
  all: try (right; eexists; apply suffix_4).
  all: eexists _, _, _; split_and!; [by rewrite <- app_assoc | eassumption | reflexivity].
Qed.

Lemma worker_hangs_only_on_silence_witness :
  ∃ h e, (Worker.main silent (Some "c0ffee")).2 = h ++ [e]
    ∧ ((∃ k m p, e = Request k m p ∧ answer silent h k m p = Silent)
       ∨ (e = Destroy ∧ destroyed silent h = Silent)).
Proof. apply worker_hangs_only_on_silence; [discriminate | by vm_compute]. Defined.

Lemma fetch_asks_for_created_wallet_witness :
  ∃ h added body first id,
    answer obliging h (Buffer_from_hex "c0ffee") "addWallet" added = Answers (Some body)
    ∧ get (Parsed body) P0 = inr first
    ∧ get first Pid = inr id
    ∧ JObj [("id", JStr "wallet-1")] = JObj (field "id" id).
Proof.
  refine (proj1 (fetch_asks_for_created_wallet obliging "c0ffee" _)
            (Buffer_from_hex "c0ffee") (JObj [("id", JStr "wallet-1")]) _).
  - discriminate.
  - apply list_elem_of_In. vm_compute. repeat (first [left; reflexivity | right]).
Defined.

Lemma failure_is_reported_then_destroyed_witness :
  ∃ last_line,
    (Worker.main unreachable (Some "c0ffee")).2
    = (operations unreachable (Buffer_from_hex "c0ffee") (greeting "c0ffee")).2
      ++ [ErrorMessage "Error:" channel_closed; ErrorStack "Stack:" channel_closed;
          Destroy] ++ last_line
    ∧ (last_line = [] ∨ ∃ err', last_line = [ErrorObject err']).
Proof.
  refine (proj1 (failure_is_reported_then_destroyed unreachable "c0ffee" _)
            channel_closed
            (operations unreachable (Buffer_from_hex "c0ffee") (greeting "c0ffee")).2 _).
  - discriminate.
  - by vm_compute.
Defined.
End WorkerProperties.
